(** * PascalObjectDetection: the SupportVectorMachine classifier and the HOG extractor

    A shallow embedding of [src/SupportVectorMachine.cpp] and of the inline
    members of [src/Feature.h].

    Conventions of the embedding.
    - [float] and [double] values are idealised as exact rationals ([Q]);
      the widening [(double) labels[k]] and the narrowing on [return
      decisionValue] are therefore identities.  Copies are compared with
      Leibniz equality, arithmetic results with [==] ([Qeq]).
    - [int] sizes and loop counters are [nat] (sizes are assumed to fit in an
      [int], and every [new] to be granted); the [index] field of an
      [svm_node] is a [Z] because of the sentinel [-1].  [train_int] is
      [train] without these two assumptions: sizes are 32-bit [int]s that
      wrap, and a [new] may throw.
    - [scaleFactor] is the quotient as a rational; [scaleFactor_binary64] is
      the quotient as the [double] that the division returns.
    - A field that C++ leaves uninitialised, and a read outside a buffer, is
      [None].
    - [SupportVectorMachine.cpp] uses a [Feature] through the [cv::Mat]
      interface ([size()], [at<float>(row, col)], [Mat::zeros]); that is the
      interface embedded here.
    - libsvm ([svm_train], [svm_load_model_fp], [svm_save_model_fp],
      [svm_predict_values]) is an external library: the solver and the model
      codec are members of the class [LibSVM]; the decision function is
      written out for the two-class case. *)

From Stdlib Require Import QArith Qabs ZArith List String Lia.
From stdpp Require Import gmap strings list fin_maps.

Local Open Scope nat_scope.

(** ** cv::Size and cv::Mat as used by the classifier *)

Record Size := mkSize { width : nat; height : nat }.

(** A continuous matrix: [rows * cols] elements of [channels] floats each,
    stored row-major. *)
Record Mat := mkMat {
  rows : nat;
  cols : nat;
  channels : nat;
  data : list Q
}.

(** The descriptor type of [Feature.h], seen through the [cv::Mat] interface. *)
Abbreviation Feature := Mat.
Abbreviation FeatureCollection := (list Mat).

(** [Mat::size()] is [Size(cols, rows)]. *)
Definition Mat_size (m : Mat) : Size :=
  {| width := cols m; height := rows m |}.

(** [m.at<float>(i, j)] in a release build: no bounds check, the address is
    [((float* )(data + step * i))[j]] where a row holds [cols * channels]
    floats.  [None] is a read outside the buffer. *)
Definition Mat_at (m : Mat) (i j : nat) : option Q :=
  data m !! (i * (cols m * channels m) + j).

(** [Mat::zeros(rows, cols, CV_32FC2)] for [ch = 2]. *)
Definition Mat_zeros (r c ch : nat) : Mat :=
  {| rows := r; cols := c; channels := ch; data := replicate (r * c * ch) 0%Q |}.

(** A [dim x 1] single-channel column vector holding [v]. *)
Definition column (v : list Q) : Feature :=
  {| rows := length v; cols := 1; channels := 1; data := v |}.

(** ** libsvm's exchange types *)

Record svm_node := mkNode {
  index : option Z;
  value : option Q
}.

(** An element of a freshly allocated [new svm_node[n]]. *)
Definition uninit_node : svm_node := {| index := None; value := None |}.

(** [svm_problem]: [x[k]] is a pointer into the shared node buffer, kept as
    the offset of the node it points at. *)
Record svm_problem := mkProblem {
  l : nat;
  y : list (option Q);
  x : list (option nat)
}.

(** ** The body of [train] between the size check and the call of the solver *)

(** The node written for [i != dim]: [index = i] and
    [value = currentFeature.at<float>(i,1)]. *)
Definition value_node (currentFeature : Feature) (i : nat) : svm_node :=
  {| index := Some (Z.of_nat i); value := Mat_at currentFeature i 1 |}.

(** The effect of [_data[...].index = -1] on a node. *)
Definition end_node (nd : svm_node) : svm_node :=
  {| index := Some (-1)%Z; value := value nd |}.

(** One turn of the inner loop [for (i = 0; i < dim+1; i++)]. *)
Definition store_node (dim k : nat) (currentFeature : Feature)
    (_data : list svm_node) (i : nat) : list svm_node :=
  if decide (i ≠ dim) then
    <[k * (dim + 1) + i := value_node currentFeature i]> _data
  else
    alter end_node (k * (dim + 1) + dim) _data.

Definition copy_feature (dim k : nat) (currentFeature : Feature)
    (_data : list svm_node) : list svm_node :=
  foldl (store_node dim k currentFeature) _data (seq 0 (dim + 1)).

(** The state of the outer loop: [problem.y], [problem.x] and [_data]. *)
Record fill_state := mkFill {
  fy : list (option Q);
  fx : list (option nat);
  fdata : list svm_node
}.

(** One turn of the outer loop [for (k = 0; k < nVecs; k++)].  [labels[k]]
    and [fset[k]] are unchecked [operator[]] accesses: [None] is a read
    outside the vector. *)
Definition fill_step (dim : nat) (labels : list Q) (fset : FeatureCollection)
    (st : option fill_state) (k : nat) : option fill_state :=
  st ≫= λ s,
  labels !! k ≫= λ lab,
  fset !! k ≫= λ currentFeature,
  Some {| fy := <[k := Some lab]> (fy s);
          fx := <[k := Some (k * (dim + 1))]> (fx s);
          fdata := copy_feature dim k currentFeature (fdata s) |}.

Definition fill_problem (nVecs dim : nat) (labels : list Q)
    (fset : FeatureCollection) : option fill_state :=
  foldl (fill_step dim labels fset)
        (Some {| fy := replicate nVecs None;
                 fx := replicate nVecs None;
                 fdata := replicate (nVecs * (dim + 1)) uninit_node |})
        (seq 0 nVecs).

(** [dim = shape.width * shape.height] for [shape = fset[0].size()]. *)
Definition feature_dim (f : Feature) : nat :=
  width (Mat_size f) * height (Mat_size f).

(** ** libsvm's model and decision function *)

Inductive kernel := LINEAR | POLY | RBF | SIGMOID | PRECOMPUTED.

(** The fields of [svm_model] that the classifier or the decision function
    reads.  [model_l] is the field [l] (the number of support vectors). *)
Record svm_model := mkModel {
  kernel_type : kernel;
  nr_class : nat;
  model_l : nat;
  SV : list (list svm_node);
  sv_coef : list (list Q);
  rho : list Q
}.

(** The external library: parameters, solver and model codec.  A stream is
    the text it holds; [svm_save_model_fp] yields the text it writes, or
    [None] for a non-zero return; [svm_load_model_fp] yields [None] for a
    [NULL] model.  The solver sees the problem together with the node
    buffer its rows point into, and always returns a model. *)
Class LibSVM := {
  svm_parameter : Type;
  svm_train : svm_problem → list svm_node → svm_parameter → svm_model;
  svm_save_model_fp : svm_model → option string;
  svm_load_model_fp : string → option svm_model;
  k_function_other : kernel → list svm_node → list svm_node → option Q
}.

(** Modelled from the spec: libsvm's [Kernel::dot] is not in src/; this is
    the "dot(features, weights_in_dual_form)" of the linear kernel on two
    sentinel-terminated node arrays.  Both arrays are walked until one of
    them shows the sentinel; nodes with equal indices contribute the product
    of their values.  [None]: an uninitialised field or the end of an array
    was read. *)
Fixpoint dot_from (sum : Q) (px : list svm_node) : list svm_node → option Q :=
  fix dot_py (py : list svm_node) : option Q :=
    match px with
    | [] => None
    | nx :: px' =>
      ix ← index nx;
      if (ix =? -1)%Z then Some sum else
      match py with
      | [] => None
      | ny :: py' =>
        iy ← index ny;
        if (iy =? -1)%Z then Some sum else
        if (ix =? iy)%Z then
          vx ← value nx; vy ← value ny;
          dot_from (sum + vx * vy)%Q px' py'
        else if (ix >? iy)%Z then dot_py py'
        else dot_from sum px' py
      end
    end.

Definition dot (px py : list svm_node) : option Q := dot_from 0%Q px py.

Definition k_function `{LibSVM} (k : kernel) (px py : list svm_node) : option Q :=
  match k with
  | LINEAR => dot px py
  | _ => k_function_other k px py
  end.

(** Modelled from the spec: libsvm's [svm_predict_values] is not in src/;
    this is the decision function of §4.3 and of the comment in
    [predictSlidingWindow], "dot(feat, weights) - bias term", in dual form:
    the sum over the support vectors [s] of [sv_coef[0][s] * K(x, SV[s])],
    minus [rho[0]].  It is the two-class case, the only one that writes
    exactly one decision value. *)
Definition decision_sum `{LibSVM} (model : svm_model) (px : list svm_node)
    (acc : option Q) (s : nat) : option Q :=
  sum ← acc;
  coefs ← sv_coef model !! 0;
  c ← coefs !! s;
  sv ← SV model !! s;
  kv ← k_function (kernel_type model) px sv;
  Some (sum + c * kv)%Q.

Definition svm_predict_values `{LibSVM} (model : svm_model)
    (px : list svm_node) : option Q :=
  if decide (nr_class model = 2) then
    sum ← foldl (decision_sum model px) (Some 0%Q) (seq 0 (model_l model));
    r ← rho model !! 0;
    Some (sum - r)%Q
  else None.

(** ** Exceptions, outcomes and the heap *)

(** One constructor per [throw] of the source; [what] is the thrown text. *)
Inductive exn :=
  | SizeMismatch
  | NoModelBias
  | NoModelWeights
  | NoModelSave
  | OpenForReading (filename : string)
  | LoadFailed
  | WriteFailed.

Definition what (e : exn) : string :=
  match e with
  | SizeMismatch => "Database size is different from feature set size!"
  | NoModelBias => "Asking for SVM bias term but there is no model. Either load one from file or train one before."
  | NoModelWeights => "Asking for SVM weights but there is no model. Either load one from file or train one before."
  | NoModelSave => "No model to be saved"
  | OpenForReading filename => "Failed to open file " +:+ filename +:+ " for reading"
  | LoadFailed => "Failed to load SVM model"
  | WriteFailed => "Error while trying to write model to file"
  end.

Inductive error_kind :=
  ConfigurationError | ValidationError | StateError | IOError | ModelError.

(** Modelled from the spec: the source throws bare strings; the kinds are the
    taxonomy of §7 (sizes: validation; no model: state; open or write
    failure: I/O; a stream that does not decode: model). *)
Definition kind_of (e : exn) : error_kind :=
  match e with
  | SizeMismatch => ValidationError
  | NoModelBias | NoModelWeights | NoModelSave => StateError
  | OpenForReading _ | WriteFailed => IOError
  | LoadFailed => ModelError
  end.

(** [Undefined]: the C++ has undefined behaviour (a null or dangling pointer
    is dereferenced, a vector is read out of range, memory is freed twice). *)
Inductive outcome (A : Type) :=
  | Ret (a : A)
  | Throw (e : exn)
  | Undefined.
Arguments Ret {A} a.
Arguments Throw {A} e.
Arguments Undefined {A}.

(** What a live heap block holds. *)
Inductive kind := KModel | KNodes | KLabels | KRows.

#[global] Instance kind_eq_dec : EqDecision kind.
Proof. solve_decision. Defined.

(** The members of the class.  A non-null pointer is the address of the block
    together with the (immutable) contents it points at. *)
Record SupportVectorMachine := mkSVM {
  _model : option (nat * svm_model);
  _data : option (nat * list svm_node);
  _fVecShape : Size
}.

(** What the allocator was asked to do, newest first. *)
Inductive event :=
  | EAlloc (k : kind) (a : nat)
  | EFree (k : kind) (a : nat).

Record state := mkState {
  this : SupportVectorMachine;
  mem : gmap nat kind;
  log : list event
}.

Definition M (A : Type) : Type := state → outcome A * state.

#[global] Instance M_ret : MRet M := λ A a s, (Ret a, s).
#[global] Instance M_bind : MBind M := λ A B f m s,
  match m s with
  | (Ret a, s') => f a s'
  | (Throw e, s') => (Throw e, s')
  | (Undefined, s') => (Undefined, s')
  end.

Definition throw {A} (e : exn) : M A := λ s, (Throw e, s).
Definition undefined {A} : M A := λ s, (Undefined, s).
Definition get_this : M SupportVectorMachine := λ s, (Ret (this s), s).
Definition put_this (t : SupportVectorMachine) : M () :=
  λ s, (Ret (), {| this := t; mem := mem s; log := log s |}).

(** [new]/[malloc]: some address that is not live. *)
Definition alloc (k : kind) : M nat := λ s,
  let a := fresh (dom (mem s)) in
  (Ret a, {| this := this s; mem := <[a := k]> (mem s); log := EAlloc k a :: log s |}).

(** [delete []]/[free] of a block of kind [k]. *)
Definition release (k : kind) (a : nat) : M () := λ s,
  if decide (mem s !! a = Some k)
  then (Ret (), {| this := this s; mem := delete a (mem s); log := EFree k a :: log s |})
  else (Undefined, s).

(** ** The classifier *)

Section Classifier.
Context `{LibSVM}.

(** [SupportVectorMachine()]: both pointers null.  [_fVecShape] has no
    initialiser and is assigned nowhere in the file; its value at
    construction is the argument [shape0]. *)
Definition new_SupportVectorMachine (shape0 : Size) : SupportVectorMachine :=
  {| _model := None; _data := None; _fVecShape := shape0 |}.

Definition set_model (m : option (nat * svm_model)) : M () :=
  t ← get_this;
  put_this {| _model := m; _data := _data t; _fVecShape := _fVecShape t |}.

Definition set_data (d : option (nat * list svm_node)) : M () :=
  t ← get_this;
  put_this {| _model := _model t; _data := d; _fVecShape := _fVecShape t |}.

(** [if (_model != NULL) svm_free_and_destroy_model(&_model);], which also
    nulls the pointer. *)
Definition free_model : M () :=
  t ← get_this;
  match _model t with
  | Some (a, _) => release KModel a;; set_model None
  | None => mret ()
  end.

(** [if (_data) delete [] _data;]: the pointer itself is left as it is. *)
Definition delete_data : M () :=
  t ← get_this;
  match _data t with
  | Some (a, _) => release KNodes a
  | None => mret ()
  end.

Definition _deinit : M () :=
  free_model;;
  delete_data;;
  set_model None;;
  set_data None.

(** [~SupportVectorMachine()]. *)
Definition destroy : M () := _deinit.

(** [train(labels, fset, parameter)], with sizes that fit an [int] and every
    [new] granted; [train_int] below drops both assumptions.  [fset[0]] of
    an empty batch is undefined; the loops are [fill_problem]. *)
Definition train (labels : list Q) (fset : FeatureCollection)
    (parameter : svm_parameter) : M () :=
  if decide (length labels ≠ length fset) then throw SizeMismatch else
  let nVecs := length labels in
  match fset !! 0 with
  | None => undefined
  | Some f0 =>
    let dim := feature_dim f0 in
    py ← alloc KLabels;
    px ← alloc KRows;
    delete_data;;
    pd ← alloc KNodes;
    match fill_problem nVecs dim labels fset with
    | None => undefined
    | Some filled =>
      set_data (Some (pd, fdata filled));;
      free_model;;
      pm ← alloc KModel;
      set_model (Some (pm, svm_train {| l := nVecs; y := fy filled; x := fx filled |}
                                      (fdata filled) parameter));;
      release KLabels py;;
      release KRows px
    end
  end.

(** The node array that [predict] builds for one feature: [dim] nodes
    [(i, feature.at<float>(i,0))] and the sentinel. *)
Definition predict_nodes (feature : Feature) : list svm_node :=
  let dim := feature_dim feature in
  map (λ i, {| index := Some (Z.of_nat i); value := Mat_at feature i 0 |}) (seq 0 dim)
  ++ [{| index := Some (-1)%Z; value := None |}].

(** [predict(const Feature&)].  There is no test of [_model]: a null model
    goes to [svm_predict_values], which dereferences it.  The result is the
    decision value as a rational: the narrowing of the [double] to the
    [float] that is returned is not modelled. *)
Definition predict (t : SupportVectorMachine) (feature : Feature) : outcome Q :=
  match _model t with
  | None => Undefined
  | Some (_, model) =>
    match svm_predict_values model (predict_nodes feature) with
    | Some decisionValue => Ret decisionValue
    | None => Undefined
    end
  end.

(** [predict(const FeatureCollection&)]: the scores in order, or the first
    outcome that is not a score. *)
Fixpoint predict_all (t : SupportVectorMachine) (fset : FeatureCollection)
    : outcome (list Q) :=
  match fset with
  | [] => Ret []
  | f :: rest =>
    match predict t f with
    | Ret v => match predict_all t rest with
               | Ret vs => Ret (v :: vs)
               | Throw e => Throw e
               | Undefined => Undefined
               end
    | Throw e => Throw e
    | Undefined => Undefined
    end
  end.

Definition getBiasTerm (t : SupportVectorMachine) : outcome Q :=
  match _model t with
  | None => Throw NoModelBias
  | Some (_, model) =>
    match rho model !! 0 with
    | Some r => Ret r
    | None => Undefined
    end
  end.

(** [getWeights()]: the loop over the support vectors is commented out in the
    source; what is returned is the zero matrix. *)
Definition getWeights (t : SupportVectorMachine) : outcome Feature :=
  match _model t with
  | None => Throw NoModelWeights
  | Some _ => Ret (Mat_zeros (width (_fVecShape t)) (height (_fVecShape t)) 2)
  end.

(** [load(FILE* )]. *)
Definition load (fp : string) : M () :=
  _deinit;;
  match svm_load_model_fp fp with
  | Some model => pm ← alloc KModel; set_model (Some (pm, model))
  | None => set_model None;; throw LoadFailed
  end.

(** [load(const std::string&)]: [fs] maps the names of the files that
    [fopen(..., "rb")] can open to their contents. *)
Definition load_file (fs : gmap string string) (filename : string) : M () :=
  match fs !! filename with
  | None => throw (OpenForReading filename)
  | Some f => load f
  end.

(** [SupportVectorMachine(const std::string &modelFName)], run on the heap
    [h]: the outcome of the constructor and the state it leaves. *)
Definition new_SupportVectorMachine_from (shape0 : Size) (fs : gmap string string)
    (modelFName : string) (h : gmap nat kind) : outcome () * state :=
  load_file fs modelFName
    {| this := new_SupportVectorMachine shape0; mem := h; log := [] |}.

(** [save(FILE* )]: the stream after the call. *)
Definition save (t : SupportVectorMachine) (fp : string) : outcome string :=
  match _model t with
  | None => Throw NoModelSave
  | Some (_, model) =>
    match svm_save_model_fp model with
    | Some text => Ret (fp +:+ text)
    | None => Throw WriteFailed
    end
  end.

End Classifier.

(** ** [train] with [int] sizes and an allocator that may refuse *)

(** The value that an [int] takes: 32 bits, two's complement.  Arithmetic
    that overflows wraps, as it does on the targets of the build (the
    language leaves it undefined). *)
Definition to_int (z : Z) : Z := ((z + 2 ^ 31) mod 2 ^ 32 - 2 ^ 31)%Z.

(** What [new] throws. *)
Inductive std_exception := bad_alloc | bad_array_new_length.

(** [new T[n]] for an [int] [n]: a negative [n] throws
    [std::bad_array_new_length]; otherwise a block is handed out when the
    allocator grants the request and [std::bad_alloc] is thrown when it
    does not.  The exception is the left result; nothing in [train] catches
    it. *)
Definition new_array (grants : kind → Z → bool) (k : kind) (n : Z)
    : M (std_exception + nat) :=
  if (n <? 0)%Z then mret (inl bad_array_new_length)
  else if grants k n then a ← alloc k; mret (inr a)
  else mret (inl bad_alloc).

(** [train] as above, with [nVecs], [dim] and [nVecs * (dim + 1)] computed in
    [int] and every [new] free to throw.  Where a size has wrapped and the
    allocation was granted all the same, the loops write or point outside
    the buffer: undefined behaviour. *)
Definition train_int `{LibSVM} (grants : kind → Z → bool) (labels : list Q)
    (fset : FeatureCollection) (parameter : svm_parameter)
    : M (std_exception + ()) :=
  if decide (length labels ≠ length fset) then throw SizeMismatch else
  let nVecs := to_int (Z.of_nat (length labels)) in
  match fset !! 0 with
  | None => undefined
  | Some f0 =>
    let dim := to_int (Z.of_nat (width (Mat_size f0)) *
                       Z.of_nat (height (Mat_size f0))) in
    y ← new_array grants KLabels nVecs;
    match y with
    | inl e => mret (inl e)
    | inr py =>
      x ← new_array grants KRows nVecs;
      match x with
      | inl e => mret (inl e)
      | inr px =>
        delete_data;;
        let size := to_int (nVecs * to_int (dim + 1)) in
        d ← new_array grants KNodes size;
        match d with
        | inl e => mret (inl e)
        | inr pd =>
          if decide (nVecs = Z.of_nat (length labels) ∧ 0 ≤ dim ∧
                     size = nVecs * (dim + 1))%Z
          then
            match fill_problem (length labels) (Z.to_nat dim) labels fset with
            | None => undefined
            | Some filled =>
              set_data (Some (pd, fdata filled));;
              free_model;;
              pm ← alloc KModel;
              set_model (Some (pm, svm_train {| l := length labels;
                                                y := fy filled;
                                                x := fx filled |}
                                              (fdata filled) parameter));;
              release KLabels py;;
              release KRows px;;
              mret (inr ())
            end
          else undefined
        end
      end
    end
  end.

(** ** The weight template *)

(** The first [dim] values of a support vector, as the commented-out loop of
    [getWeights] walks them ([sv->value] at position [d]). *)
Definition sv_values (sv : list svm_node) (dim : nat) : list Q :=
  map (λ d, default 0%Q (sv !! d ≫= value)) (seq 0 dim).

(** [*w += sv->value * coeff] over one support vector. *)
Definition add_scaled (coeff : Q) (sv : list Q) (w : list Q) : list Q :=
  zip_with (λ wd vd, wd + vd * coeff)%Q w sv.

(** Modelled from the spec: the body of [getWeights] is commented out in
    src/; this is the reconstruction of §4.3, "summing
    coefficient[s] * supportVector[s] over all support vectors into an array
    of the original descriptor shape", here the array of [dim] values. *)
Definition primal_weights (model : svm_model) (dim : nat) : list Q :=
  foldl (λ w s,
           add_scaled (default 0%Q (sv_coef model !! 0 ≫= (.!! s)))
                      (sv_values (default [] (SV model !! s)) dim) w)
        (replicate dim 0%Q) (seq 0 (model_l model)).

(** Modelled from the spec: the template of §4.3, the primal weights in a
    matrix of the descriptor shape, [h x w] cells of [d] channels.  It is
    what [getWeights] is specified to return, not what it returns. *)
Definition weight_template (model : svm_model) (h w d : nat) : Mat :=
  {| rows := h; cols := w; channels := d;
     data := primal_weights model (h * w * d) |}.

(** ** The sliding-window evaluator *)

Definition Qsum (qs : list Q) : Q := foldr Qplus 0%Q qs.

(** Channel [ch] of the cell in row [r] and column [c]: cells are stored
    row-major, the channels of a cell side by side (§4.2). *)
Definition Mat_elem (m : Mat) (r c ch : nat) : Q :=
  default 0%Q (data m !! ((r * cols m + c) * channels m + ch)).

(** One band (channel) of a matrix as a grid of scalars. *)
Definition BandSelect (m : Mat) (ch : nat) : list (list Q) :=
  map (λ r, map (λ c, Mat_elem m r c ch) (seq 0 (cols m))) (seq 0 (rows m)).

Definition grid_at (g : list (list Q)) (r c : nat) : Q :=
  default 0%Q (g !! r ≫= (.!! c)).

(** The sliding dot product of a [kh x kw] kernel with the window of [img]
    whose top left cell is [(r, c)]. *)
Definition window_dot (kh kw : nat) (kernel img : list (list Q)) (r c : nat) : Q :=
  Qsum (map (λ dy,
          Qsum (map (λ dx, grid_at kernel dy dx * grid_at img (r + dy) (c + dx))%Q
                    (seq 0 kw)))
        (seq 0 kh)).

(** Cross-correlation of one band with the kernel, at the [oh x ow] positions
    where the window lies inside the map. *)
Definition correlate (kh kw oh ow : nat) (kernel img : list (list Q))
    : list (list Q) :=
  map (λ r, map (λ c, window_dot kh kw kernel img r c) (seq 0 ow)) (seq 0 oh).

Definition grid_add (g1 g2 : list (list Q)) : list (list Q) :=
  zip_with (zip_with Qplus) g1 g2.

(** Modelled from the spec: [predictSlidingWindow] is commented out in src/
    and its body is a TODO; this is the dense path of §4.4: for each
    channel, correlate that channel's weight slice with the same channel of
    the descriptor map, sum the per-channel outputs pointwise into one
    response map, and subtract the bias from every cell.  The response has
    one cell per position at which the window lies inside the map. *)
Definition predictSlidingWindow (weights : Mat) (bias : Q) (feat : Mat)
    : list (list Q) :=
  let oh := rows feat + 1 - rows weights in
  let ow := cols feat + 1 - cols weights in
  let score :=
    foldl (λ acc ch,
             grid_add acc (correlate (rows weights) (cols weights) oh ow
                                     (BandSelect weights ch) (BandSelect feat ch)))
          (replicate oh (replicate ow 0%Q))
          (seq 0 (channels feat)) in
  map (map (λ v, v - bias)%Q) score.



(** Modelled from the spec: the window of [h x w] cells at [(r, c)] cropped
    into a descriptor of its own, a column vector in row-major cell order,
    channel last. *)
Definition crop (feat : Mat) (r c h w : nat) : Feature :=
  column (dy ← seq 0 h; dx ← seq 0 w; ch ← seq 0 (channels feat);
          [Mat_elem feat (r + dy) (c + dx) ch]).

(** The dense encoding of a vector: nodes [(i, v_i)] from index [i0] on. *)
Fixpoint nodes_from (i0 : nat) (v : list Q) : list svm_node :=
  match v with
  | [] => []
  | a :: v' => {| index := Some (Z.of_nat i0); value := Some a |} :: nodes_from (S i0) v'
  end.

Definition dense_nodes (v : list Q) : list svm_node :=
  nodes_from 0 v ++ [{| index := Some (-1)%Z; value := None |}].

(** The dot product of two dense vectors, accumulated from [sum]. *)
Definition dense_dot (sum : Q) (xs vs : list Q) : Q :=
  foldl (λ acc p, acc + p.1 * p.2)%Q sum (zip xs vs).

(** A two-class linear model with coefficients [coefs], bias [b] and as
    support vectors the dense encodings of the vectors [svs], all of
    dimension [dim]. *)
Definition dense_linear_model (model : svm_model) (coefs : list Q)
    (svs : list (list Q)) (b : Q) (dim : nat) : Prop :=
  kernel_type model = LINEAR ∧ nr_class model = 2 ∧
  rho model !! 0 = Some b ∧
  model_l model = length svs ∧
  sv_coef model !! 0 = Some coefs ∧ length coefs = length svs ∧
  SV model = map dense_nodes svs ∧
  Forall (λ v, length v = dim) svs.

(** ** The HOG extractor of Feature.h *)

Record HOGFeatureExtractor := mkHOG {
  _nAngularBins : Z;
  _unsignedGradients : bool;
  _cellSize : Z
}.

(** [scaleFactor() const { return 1.0 / double(_cellSize); }], the quotient
    as a rational; the [double] that is returned is [scaleFactor_binary64]. *)
Definition scaleFactor (e : HOGFeatureExtractor) : Q :=
  (1 / inject_Z (_cellSize e))%Q.

(** ** binary64 *)

(** A [double]: a finite value, an infinity or a NaN. *)
Inductive binary64 :=
  | Finite (q : Q)
  | Infinity (negative : bool)
  | NaN.

(** The integer nearest to [n / d] for [d > 0], ties to the even one. *)
Definition round_half_even (n d : Z) : Z :=
  let q := (n / d)%Z in
  let r := (n mod d)%Z in
  if (2 * r <? d)%Z then q
  else if (d <? 2 * r)%Z then (q + 1)%Z
  else if Z.even q then q else (q + 1)%Z.

(** [n / d * 2 ^ (- e)] as a fraction of integers. *)
Definition scale_by (n d e : Z) : Z * Z :=
  if (0 <=? e)%Z then (n, d * 2 ^ e)%Z else (n * 2 ^ (- e), d)%Z.

(** Rounding to nearest of the positive rational [n / d], in the range of
    the normal doubles: the significand [m], of 53 bits, and the exponent [e]
    of its last bit, so that the double is [m * 2 ^ e]. *)
Definition nearest_double (n d : Z) : Z * Z :=
  let e0 := (Z.log2 n - Z.log2 d - 52)%Z in
  let e := if (fst (scale_by n d e0) <? 2 ^ 52 * snd (scale_by n d e0))%Z
           then (e0 - 1)%Z else e0 in
  (round_half_even (fst (scale_by n d e)) (snd (scale_by n d e)), e).

(** The value [m * 2 ^ e]. *)
Definition double_value (me : Z * Z) : Q :=
  if (0 <=? snd me)%Z then inject_Z (fst me * 2 ^ snd me)
  else (fst me # Z.to_pos (2 ^ (- snd me)))%Q.

(** [scaleFactor()] in the arithmetic of the code: [double(_cellSize)] is
    exact for an [int], and [1.0 / x] is the quotient rounded to nearest,
    an infinity for [x = 0]. *)
Definition scaleFactor_binary64 (e : HOGFeatureExtractor) : binary64 :=
  let c := _cellSize e in
  if (c =? 0)%Z then Infinity false
  else if (0 <? c)%Z then Finite (double_value (nearest_double 1 c))
  else Finite (- double_value (nearest_double 1 (- c)))%Q.

(** ** Ownership *)

(** The pointers of the classifier point at live blocks of the right kind. *)
Definition consistent (s : state) : Prop :=
  (∀ a model, _model (this s) = Some (a, model) → mem s !! a = Some KModel) ∧
  (∀ a nodes, _data (this s) = Some (a, nodes) → mem s !! a = Some KNodes).

(** The heap without the blocks the classifier points at. *)
Definition others (s : state) : gmap nat kind :=
  let m1 := match _model (this s) with Some (a, _) => delete a (mem s) | None => mem s end in
  match _data (this s) with Some (a, _) => delete a m1 | None => m1 end.

(** The events of [_deinit]: the model is released first, then the buffer. *)
Definition deinit_log (s : state) : list event :=
  match _data (this s) with Some (b, _) => [EFree KNodes b] | None => [] end ++
  match _model (this s) with Some (a, _) => [EFree KModel a] | None => [] end.

(** The number of blocks of kind [k] that are live after the events of
    [events]. *)
Fixpoint live (k : kind) (events : list event) : Z :=
  match events with
  | [] => 0
  | EAlloc k' _ :: older => (if decide (k' = k) then 1 else 0) + live k older
  | EFree k' _ :: older => live k older - (if decide (k' = k) then 1 else 0)
  end.

(** At every moment of the history at most one block of kind [k] was live. *)
Fixpoint at_most_one (k : kind) (events : list event) : Prop :=
  match events with
  | [] => True
  | _ :: older => (live k events ≤ 1)%Z ∧ at_most_one k older
  end.

(** The ownership discipline: the pointers are valid, the rest of the heap is
    [h], and over the whole history the classifier held at most one model and
    at most one node buffer, which are the ones it points at now. *)
Definition invariant (h : gmap nat kind) (s : state) : Prop :=
  consistent s ∧ others s = h ∧
  live KModel (log s) = (if _model (this s) is Some _ then 1 else 0)%Z ∧
  live KNodes (log s) = (if _data (this s) is Some _ then 1 else 0)%Z ∧
  at_most_one KModel (log s) ∧ at_most_one KNodes (log s).

(** The calls a client makes on one instance. *)
Inductive call `{LibSVM} :=
  | CallTrain (labels : list Q) (fset : FeatureCollection) (parameter : svm_parameter)
  | CallLoad (fp : string)
  | CallLoadFile (fs : gmap string string) (filename : string).

Definition exec `{LibSVM} (c : call) : M () :=
  match c with
  | CallTrain labels fset parameter => train labels fset parameter
  | CallLoad fp => load fp
  | CallLoadFile fs filename => load_file fs filename
  end.

(** A client that catches what a call throws and goes on to the next call;
    undefined behaviour ends the run. *)
Fixpoint run `{LibSVM} (calls : list call) (s : state) : outcome () * state :=
  match calls with
  | [] => (Ret (), s)
  | c :: rest =>
    match exec c s with
    | (Undefined, s') => (Undefined, s')
    | (_, s') => run rest s'
    end
  end.

(** ** A small instance of the external library, for concrete runs *)

#[global] Instance Q_eq_dec : EqDecision Q.
Proof. solve_decision. Defined.
#[global] Instance svm_node_eq_dec : EqDecision svm_node.
Proof. solve_decision. Defined.
#[global] Instance kernel_eq_dec : EqDecision kernel.
Proof. solve_decision. Defined.
#[global] Instance svm_model_eq_dec : EqDecision svm_model.
Proof. solve_decision. Defined.

(** A solver that keeps every training row as a support vector with its
    label as coefficient, and bias [0]. *)
Definition keep_all_solver (problem : svm_problem) (nodes : list svm_node)
    (parameter : ()) : svm_model :=
  {| kernel_type := LINEAR;
     nr_class := 2;
     model_l := l problem;
     SV := map (λ row, match row with Some off => drop off nodes | None => [] end)
               (x problem);
     sv_coef := [map (default 0%Q) (y problem)];
     rho := [0%Q] |}.

(** One support vector [(2)] with coefficient [1], bias [1/2]. *)
Definition unit_model : svm_model :=
  {| kernel_type := LINEAR;
     nr_class := 2;
     model_l := 1;
     SV := [[ {| index := Some 0%Z; value := Some 2%Q |};
              {| index := Some (-1)%Z; value := None |} ]];
     sv_coef := [[1%Q]];
     rho := [(1 # 2)%Q] |}.

(** A codec that knows one model. *)
Definition one_model_save (model : svm_model) : option string :=
  if decide (model = unit_model) then Some "svm_type c_svc" else None.
Definition one_model_load (fp : string) : option svm_model :=
  if decide (fp = "svm_type c_svc") then Some unit_model else None.

Definition toy_libsvm : LibSVM :=
  {| svm_parameter := ();
     svm_train := keep_all_solver;
     svm_save_model_fp := one_model_save;
     svm_load_model_fp := one_model_load;
     k_function_other := λ _ _ _, None |}.

Definition start (h : gmap nat kind) : state :=
  {| this := new_SupportVectorMachine (mkSize 0 0); mem := h; log := [] |}.

(** A classifier that holds [unit_model] in block [0] and no buffer. *)
Definition holding_unit_model : state :=
  {| this := {| _model := Some (0, unit_model); _data := None;
                _fVecShape := mkSize 0 0 |};
     mem := {[ 0 := KModel ]};
     log := [EAlloc KModel 0] |}.

(** A [2 x 3] descriptor map of two channels, and a linear model of two
    support vectors for windows of [1 x 2] cells. *)
Definition small_map : Mat :=
  {| rows := 2; cols := 3; channels := 2;
     data := map inject_Z [1; 2; 3; 4; 5; 6; 7; 8; 9; 10; 11; 12]%Z |}.

Definition small_model : svm_model :=
  {| kernel_type := LINEAR; nr_class := 2; model_l := 2;
     SV := [dense_nodes (map inject_Z [1; 0; 2; 1]%Z);
            dense_nodes (map inject_Z [0; 3; 1; 1]%Z)];
     sv_coef := [[(1 # 2)%Q; (-1)%Q]];
     rho := [(1 # 3)%Q] |}.

Definition holding_small_model : SupportVectorMachine :=
  {| _model := Some (0, small_model); _data := None; _fVecShape := mkSize 0 0 |}.



(** A classifier that holds [unit_model] and a node buffer in block [1]. *)
Definition holding_buffer : state :=
  {| this := {| _model := Some (0, unit_model);
                _data := Some (1, dense_nodes [2%Q]);
                _fVecShape := mkSize 0 0 |};
     mem := {[ 0 := KModel; 1 := KNodes ]};
     log := [EAlloc KModel 0; EAlloc KNodes 1] |}.

(** An allocator that has no room for a node buffer. *)
Definition no_room_for_nodes (k : kind) (n : Z) : bool :=
  match k with KNodes => false | _ => true end.

(** * Properties *)

(** ** Running the monad *)

Ltac unfold_M :=
  unfold _deinit, destroy, free_model, delete_data, set_model, set_data,
    get_this, put_this, throw, undefined, alloc, release;
  unfold mbind, mret, M_bind, M_ret.

Section Facts.
Context `{LibSVM}.

(** A pointer to a model and a pointer to a node buffer never alias. *)
Lemma consistent_distinct s a model b nodes :
  consistent s → _model (this s) = Some (a, model) →
  _data (this s) = Some (b, nodes) → a ≠ b.
Proof.
  intros [Hm Hd] E1 E2 ->.
  specialize (Hm _ _ E1). specialize (Hd _ _ E2). congruence.
Qed.

(** What [_deinit] leaves: both pointers null, the blocks they pointed at
    released. *)
Lemma deinit_spec s :
  consistent s →
  _deinit s =
    (Ret (), {| this := {| _model := None; _data := None;
                           _fVecShape := _fVecShape (this s) |};
                mem := others s;
                log := deinit_log s ++ log s |}).
Proof.
  intros Hc. pose proof Hc as [Hm Hd].
  unfold others, deinit_log.
  destruct s as [[mo da sh] h lg]; cbn in *.
  destruct mo as [[a model]|], da as [[b nodes]|]; cbn in *.
  - assert (a ≠ b) by (eapply (consistent_distinct _ _ _ _ _ Hc); reflexivity).
    specialize (Hm _ _ eq_refl). specialize (Hd _ _ eq_refl).
    unfold_M. cbn.
    destruct (decide (h !! a = Some KModel)); [|contradiction]. cbn.
    rewrite lookup_delete_ne by done.
    destruct (decide (h !! b = Some KNodes)); [|contradiction]. reflexivity.
  - specialize (Hm _ _ eq_refl). unfold_M. cbn.
    destruct (decide (h !! a = Some KModel)); [|contradiction]. reflexivity.
  - specialize (Hd _ _ eq_refl). unfold_M. cbn.
    destruct (decide (h !! b = Some KNodes)); [|contradiction]. reflexivity.
  - reflexivity.
Qed.

Lemma load_fails s fp :
  consistent s → svm_load_model_fp fp = None →
  load fp s =
    (Throw LoadFailed,
     {| this := {| _model := None; _data := None;
                   _fVecShape := _fVecShape (this s) |};
        mem := others s;
        log := deinit_log s ++ log s |}).
Proof.
  intros Hc E. unfold load.
  change (_deinit;; ?k) with (M_bind _ _ (λ _, k) _deinit).
  unfold M_bind at 1. rewrite (deinit_spec s Hc), E.
  reflexivity.
Qed.

Lemma load_succeeds s fp model :
  consistent s → svm_load_model_fp fp = Some model →
  load fp s =
    (Ret (),
     {| this := {| _model := Some (fresh (dom (others s)), model); _data := None;
                   _fVecShape := _fVecShape (this s) |};
        mem := <[fresh (dom (others s)) := KModel]> (others s);
        log := EAlloc KModel (fresh (dom (others s))) :: deinit_log s ++ log s |}).
Proof.
  intros Hc E. unfold load.
  change (_deinit;; ?k) with (M_bind _ _ (λ _, k) _deinit).
  unfold M_bind at 1. rewrite (deinit_spec s Hc), E.
  reflexivity.
Qed.

Lemma consistent_fresh shape0 h lg :
  consistent {| this := new_SupportVectorMachine shape0; mem := h; log := lg |}.
Proof. split; intros ? ? E; discriminate E. Qed.

(** C9: [load] runs [_deinit] before it decodes the stream, so a [load] whose
    stream does not decode throws and leaves the classifier as a newly
    constructed one: both pointers null, the blocks they pointed at
    released, and every operation that needs a model behaving as on a
    classifier that was never trained. *)
Theorem load_failure_leaves_untrained s fp :
  consistent s → svm_load_model_fp fp = None →
  ∃ s', load fp s = (Throw LoadFailed, s') ∧
        kind_of LoadFailed = ModelError ∧
        this s' = new_SupportVectorMachine (_fVecShape (this s)) ∧
        _model (this s') = None ∧ _data (this s') = None ∧
        mem s' = others s ∧
        log s' = deinit_log s ++ log s.
Proof.
  intros Hc E. eexists. split; [apply (load_fails s fp Hc E)|].
  cbn. repeat split.
Qed.

(** C10: the constructor from a file name is [load] on that file: when the
    file cannot be opened it throws the open error, when the contents do not
    decode it throws the load error and no model is present, and otherwise it
    returns normally with the decoded model installed. *)
Theorem construct_from_file shape0 fs modelFName h :
  let r := new_SupportVectorMachine_from shape0 fs modelFName h in
  match fs !! modelFName with
  | None =>
      fst r = Throw (OpenForReading modelFName) ∧
      kind_of (OpenForReading modelFName) = IOError ∧
      _model (this (snd r)) = None
  | Some f =>
      match svm_load_model_fp f with
      | None =>
          fst r = Throw LoadFailed ∧ kind_of LoadFailed = ModelError ∧
          _model (this (snd r)) = None
      | Some model =>
          fst r = Ret () ∧ ∃ a, _model (this (snd r)) = Some (a, model) ∧
                                mem (snd r) !! a = Some KModel
      end
  end.
Proof.
  unfold new_SupportVectorMachine_from, load_file. cbn.
  destruct (fs !! modelFName) as [f|]; [|by repeat split].
  destruct (svm_load_model_fp f) as [model|] eqn:E.
  - rewrite (load_succeeds _ f model (consistent_fresh _ _ _) E). cbn.
    split; [done|]. eexists. split; [done|]. apply lookup_insert_eq.
  - rewrite (load_fails _ f (consistent_fresh _ _ _) E). by repeat split.
Qed.

(** C3: on a classifier without a model, [getWeights], [getBiasTerm] and
    [save] throw the state error, but [predict] does not: it has no test of
    [_model] and hands the null pointer to the decision function. *)
Theorem untrained_operations t :
  _model t = None →
  (∀ feature, predict t feature = Undefined) ∧
  getWeights t = Throw NoModelWeights ∧
  getBiasTerm t = Throw NoModelBias ∧
  (∀ fp, save t fp = Throw NoModelSave) ∧
  kind_of NoModelWeights = StateError ∧
  kind_of NoModelBias = StateError ∧
  kind_of NoModelSave = StateError.
Proof.
  intros E. unfold predict, getWeights, getBiasTerm, save. rewrite E.
  by repeat split.
Qed.

End Facts.

Lemma holding_unit_model_consistent : consistent holding_unit_model.
Proof.
  split; intros a v E; cbn in E.
  - injection E as <- <-. reflexivity.
  - discriminate E.
Qed.

Lemma load_failure_witness :
  ∃ s', @load toy_libsvm "not a model" holding_unit_model = (Throw LoadFailed, s') ∧
        this s' = new_SupportVectorMachine (mkSize 0 0) ∧
        mem s' = others holding_unit_model.
Proof.
  destruct (@load_failure_leaves_untrained toy_libsvm holding_unit_model
              "not a model" holding_unit_model_consistent eq_refl)
    as (s' & E & _ & Ht & _ & _ & Hm & _).
  exists s'. repeat split; assumption.
Defined.

Lemma untrained_operations_witness :
  @predict toy_libsvm (new_SupportVectorMachine (mkSize 2 2)) (column [1%Q]) = Undefined ∧
  @getBiasTerm (new_SupportVectorMachine (mkSize 2 2)) = Throw NoModelBias.
Proof.
  destruct (@untrained_operations toy_libsvm (new_SupportVectorMachine (mkSize 2 2)) eq_refl)
    as (Hp & _ & Hb & _).
  split; [apply Hp | apply Hb].
Defined.

(** ** The loops of [train] *)

Section Loops.
Variables (dim : nat).

Lemma store_node_length k f buf i :
  length (store_node dim k f buf i) = length buf.
Proof.
  unfold store_node. case_decide; [apply length_insert | apply length_alter].
Qed.

Lemma copy_prefix_length k f buf (turns : list nat) :
  length (foldl (store_node dim k f) buf turns) = length buf.
Proof.
  revert buf. induction turns as [|i turns IH]; intros buf; [reflexivity|].
  cbn. rewrite IH. apply store_node_length.
Qed.

Lemma copy_feature_length k f buf :
  length (copy_feature dim k f buf) = length buf.
Proof. apply copy_prefix_length. Qed.

(** After [m <= dim] turns of the inner loop the first [m] nodes of block [k]
    are written and nothing else has changed. *)
Lemma store_values_lookup k f (buf : list svm_node) (m j : nat) :
  m ≤ dim → k * (dim + 1) + m ≤ length buf →
  foldl (store_node dim k f) buf (seq 0 m) !! j =
    if decide (k * (dim + 1) ≤ j < k * (dim + 1) + m)
    then Some (value_node f (j - k * (dim + 1)))
    else buf !! j.
Proof.
  induction m as [|m IH]; intros Hm Hlen.
  - cbn. case_decide; [lia | reflexivity].
  - rewrite seq_S, foldl_app. cbn. unfold store_node at 1.
    destruct (decide (m ≠ dim)) as [_|]; [|lia].
    destruct (decide (j = k * (dim + 1) + m)) as [->|Hne].
    + rewrite list_lookup_insert_eq.
      * rewrite decide_True by lia. do 2 f_equal. lia.
      * rewrite copy_prefix_length. lia.
    + rewrite list_lookup_insert_ne by done.
      rewrite IH by lia. repeat case_decide; try lia; reflexivity.
Qed.

(** The whole inner loop: block [k] holds [dim] value nodes and the
    sentinel; the rest of the buffer is untouched. *)
Lemma copy_feature_lookup k f (buf : list svm_node) (j : nat) :
  k * (dim + 1) + dim < length buf →
  copy_feature dim k f buf !! j =
    if decide (k * (dim + 1) ≤ j < k * (dim + 1) + dim)
    then Some (value_node f (j - k * (dim + 1)))
    else if decide (j = k * (dim + 1) + dim) then end_node <$> buf !! j
    else buf !! j.
Proof.
  intros Hlen. unfold copy_feature.
  assert (seq 0 (dim + 1) = seq 0 dim ++ [dim]) as ->
    by (rewrite Nat.add_1_r; apply seq_S).
  rewrite foldl_app. cbn. unfold store_node at 1.
  destruct (decide (dim ≠ dim)) as [|_]; [lia|].
  destruct (decide (j = k * (dim + 1) + dim)) as [->|Hne].
  - rewrite list_lookup_alter_eq, store_values_lookup by lia.
    repeat case_decide; try lia; reflexivity.
  - rewrite list_lookup_alter_ne by done.
    rewrite store_values_lookup by lia.
    repeat case_decide; try lia; reflexivity.
Qed.

(** Blocks do not overlap. *)
Lemma block_lt k k' i : k < k' → i ≤ dim → k * (dim + 1) + i < k' * (dim + 1).
Proof. intros Hk Hi. nia. Qed.

(** The state of the outer loop after [n] turns. *)
Lemma fill_prefix (labels : list Q) (fset : FeatureCollection) (nVecs n : nat) :
  length labels = nVecs → length fset = nVecs → n ≤ nVecs →
  ∃ st,
    foldl (fill_step dim labels fset)
          (Some {| fy := replicate nVecs None;
                   fx := replicate nVecs None;
                   fdata := replicate (nVecs * (dim + 1)) uninit_node |})
          (seq 0 n) = Some st ∧
    length (fy st) = nVecs ∧ length (fx st) = nVecs ∧
    length (fdata st) = nVecs * (dim + 1) ∧
    (∀ k, k < nVecs →
       fy st !! k = Some (if decide (k < n) then labels !! k else None) ∧
       fx st !! k = Some (if decide (k < n) then Some (k * (dim + 1)) else None)) ∧
    (∀ k i, k < nVecs → i ≤ dim →
       fdata st !! (k * (dim + 1) + i) =
         if decide (k < n) then
           f ← fset !! k;
           Some (if decide (i < dim) then value_node f i else end_node uninit_node)
         else Some uninit_node).
Proof.
  intros Hl Hf. induction n as [|n IH]; intros Hn.
  - eexists. split; [reflexivity|]. cbn.
    rewrite !length_replicate. repeat split; try done.
    + rewrite lookup_replicate_2 by done. reflexivity.
    + rewrite lookup_replicate_2 by done. reflexivity.
    + intros k i Hk Hi. apply lookup_replicate_2.
      pose proof (block_lt k nVecs i Hk Hi). lia.
  - destruct IH as (st & E & Hy & Hx & Hd & Hyx & Hnodes); [lia|].
    rewrite seq_S, foldl_app, E. cbn.
    destruct (lookup_lt_is_Some_2 labels n) as [lab El]; [lia|].
    destruct (lookup_lt_is_Some_2 fset n) as [f Ef]; [lia|].
    rewrite El, Ef. cbn.
    eexists. split; [reflexivity|]. cbn.
    rewrite !length_insert, copy_feature_length.
    repeat split; try done.
    + destruct (decide (k = n)) as [->|Hne].
      * rewrite list_lookup_insert_eq by lia.
        rewrite decide_True by lia. by rewrite El.
      * rewrite list_lookup_insert_ne by done.
        destruct (Hyx k) as [-> _]; [done|].
        repeat case_decide; try lia; reflexivity.
    + destruct (decide (k = n)) as [->|Hne].
      * rewrite list_lookup_insert_eq by lia.
        rewrite decide_True by lia. reflexivity.
      * rewrite list_lookup_insert_ne by done.
        destruct (Hyx k) as [_ ->]; [done|].
        repeat case_decide; try lia; reflexivity.
    + intros k i Hk Hi.
      rewrite copy_feature_lookup
        by (rewrite Hd; pose proof (block_lt n nVecs dim); lia).
      destruct (decide (k = n)) as [->|Hne].
      * rewrite (decide_True (P := n < S n)) by lia. rewrite Ef. cbn.
        destruct (decide (i < dim)).
        -- rewrite decide_True by lia. do 2 f_equal. lia.
        -- rewrite decide_False by lia. rewrite decide_True by lia.
           rewrite Hnodes by lia. rewrite decide_False by lia. reflexivity.
      * assert (k < n ∨ n < k) as [Hlt|Hgt] by lia.
        -- pose proof (block_lt k n i Hlt Hi).
           rewrite decide_False by lia. rewrite decide_False by lia.
           rewrite Hnodes by lia.
           rewrite (decide_True (P := k < n)) by lia.
           rewrite (decide_True (P := k < S n)) by lia. reflexivity.
        -- pose proof (block_lt n k dim Hgt).
           rewrite decide_False by lia. rewrite decide_False by lia.
           rewrite Hnodes by lia.
           rewrite (decide_False (P := k < n)) by lia.
           rewrite (decide_False (P := k < S n)) by lia. reflexivity.
Qed.

End Loops.

(** ** What [train] hands to the solver *)

(** The layout that the loops of [train] produce for a batch whose size
    agrees with the labels: labels in [y], block offsets in [x], and in block
    [k] the nodes [(i, fset[k].at<float>(i,1))] followed by the sentinel. *)
Lemma fill_problem_layout (dim : nat) (labels : list Q) (fset : FeatureCollection) :
  length labels = length fset →
  ∃ st,
    fill_problem (length labels) dim labels fset = Some st ∧
    length (fy st) = length labels ∧ length (fx st) = length labels ∧
    length (fdata st) = length labels * (dim + 1) ∧
    ∀ k f, fset !! k = Some f →
      fy st !! k = Some (labels !! k) ∧
      fx st !! k = Some (Some (k * (dim + 1))) ∧
      (∀ i, i < dim → fdata st !! (k * (dim + 1) + i) = Some (value_node f i)) ∧
      fdata st !! (k * (dim + 1) + dim) = Some (end_node uninit_node).
Proof.
  intros Hlen.
  destruct (fill_prefix dim labels fset (length labels) (length labels))
    as (st & E & Hy & Hx & Hd & Hyx & Hnodes); [done.. | ].
  exists st. repeat split; try done.
  - destruct (Hyx k) as [-> _].
    + rewrite Hlen. by eapply lookup_lt_Some.
    + rewrite decide_True; [done|]. rewrite Hlen. by eapply lookup_lt_Some.
  - destruct (Hyx k) as [_ ->].
    + rewrite Hlen. by eapply lookup_lt_Some.
    + rewrite decide_True; [done|]. rewrite Hlen. by eapply lookup_lt_Some.
  - intros i Hi. rewrite Hnodes.
    + rewrite decide_True by (rewrite Hlen; by eapply lookup_lt_Some).
      rewrite H. cbn. by rewrite decide_True.
    + rewrite Hlen. by eapply lookup_lt_Some.
    + lia.
  - rewrite Hnodes.
    + rewrite decide_True by (rewrite Hlen; by eapply lookup_lt_Some).
      rewrite H. cbn. rewrite decide_False by lia. done.
    + rewrite Hlen. by eapply lookup_lt_Some.
    + lia.
Qed.

(** The loops read [labels] and [fset] inside their bounds. *)
Lemma fill_problem_total (dim : nat) (labels : list Q) (fset : FeatureCollection) :
  length labels = length fset →
  is_Some (fill_problem (length labels) dim labels fset).
Proof.
  intros Hlen. destruct (fill_problem_layout dim labels fset Hlen) as (st & E & _).
  by exists st.
Qed.

(** On a column vector, the node written for element [i] carries element
    [i + 1], and the one for the last element a value read past the end. *)
Lemma value_node_column (v : list Q) (i : nat) :
  value_node (column v) i =
    {| index := Some (Z.of_nat i); value := v !! (i + 1) |}.
Proof. unfold value_node, Mat_at. cbn. do 2 f_equal. lia. Qed.

(** [predict] encodes element [i] of a column vector as node [i]. *)
Lemma predict_nodes_column (v : list Q) (i : nat) :
  i < length v →
  predict_nodes (column v) !! i =
    Some {| index := Some (Z.of_nat i); value := v !! i |}.
Proof.
  intros Hi. unfold predict_nodes, feature_dim. cbn.
  rewrite lookup_app_l by (rewrite length_map, length_seq; lia).
  rewrite list_lookup_fmap, lookup_seq_lt by lia. cbn.
  unfold Mat_at. cbn. do 3 f_equal. lia.
Qed.

(** C5: on the batch of one descriptor [(10, 20, 30)] with label [1], [train]
    returns normally, the target vector and the block offsets are as
    claimed, and the block ends in the sentinel, but node [0] carries [20]
    and node [1] carries [30], the elements [1] and [2] of the descriptor,
    and node [2] a value read past its end: [train] reads
    [at<float>(i,1)] where [predict] reads [at<float>(i,0)]. *)
Theorem train_reads_column_one :
  let f := column [10%Q; 20%Q; 30%Q] in
  let r := @train toy_libsvm [1%Q] [f] () (start ∅) in
  fst r = Ret () ∧
  fill_problem 1 3 [1%Q] [f] =
    Some {| fy := [Some 1%Q];
            fx := [Some 0];
            fdata := [ {| index := Some 0%Z; value := Some 20%Q |};
                       {| index := Some 1%Z; value := Some 30%Q |};
                       {| index := Some 2%Z; value := None |};
                       {| index := Some (-1)%Z; value := None |} ] |} ∧
  (∃ a, _data (this (snd r)) =
          Some (a, [ {| index := Some 0%Z; value := Some 20%Q |};
                     {| index := Some 1%Z; value := Some 30%Q |};
                     {| index := Some 2%Z; value := None |};
                     {| index := Some (-1)%Z; value := None |} ])) ∧
  Mat_at f 0 0 = Some 10%Q ∧
  predict_nodes f = [ {| index := Some 0%Z; value := Some 10%Q |};
                      {| index := Some 1%Z; value := Some 20%Q |};
                      {| index := Some 2%Z; value := Some 30%Q |};
                      {| index := Some (-1)%Z; value := None |} ].
Proof.
  cbv zeta. split; [vm_compute; reflexivity|].
  split; [vm_compute; reflexivity|].
  split; [eexists; vm_compute; reflexivity|].
  split; vm_compute; reflexivity.
Qed.

(** ** The size check of [train] *)

Section SizeCheck.
Context `{LibSVM}.

(** C4 (amended statement): when the number of labels differs from the
    number of descriptors, [train] throws the size error before it
    allocates anything or calls the solver, and the state is untouched; so
    does [train_int], whatever the allocator grants.  No shapes are
    compared. *)
Theorem train_size_check labels fset parameter s :
  length labels ≠ length fset →
  train labels fset parameter s = (Throw SizeMismatch, s) ∧
  (∀ grants, train_int grants labels fset parameter s = (Throw SizeMismatch, s)) ∧
  kind_of SizeMismatch = ValidationError.
Proof.
  intros Hne. split; [|split].
  - unfold train. by rewrite decide_True.
  - intros grants. unfold train_int. by rewrite decide_True.
  - reflexivity.
Qed.

End SizeCheck.

Lemma train_size_check_witness :
  @train toy_libsvm [1%Q; 2%Q] [column [3%Q]] () (start ∅) = (Throw SizeMismatch, start ∅).
Proof.
  apply (@train_size_check toy_libsvm [1%Q; 2%Q] [column [3%Q]] () (start ∅)).
  cbn. lia.
Defined.

(** C4, as stated, fails: a batch of a [3 x 1] and a [1 x 1] descriptor with
    two labels is trained on; the dimension is that of the first
    descriptor, the solver is called and its model installed. *)
Lemma train_accepts_mixed_shapes :
  let fset := [column [10%Q; 20%Q; 30%Q]; column [40%Q]] in
  let r := @train toy_libsvm [1%Q; (-1)%Q] fset () (start ∅) in
  Mat_size <$> fset !! 0 ≠ Mat_size <$> fset !! 1 ∧
  fst r = Ret () ∧
  ∃ a,
    _model (this (snd r)) =
      Some (a, keep_all_solver
                 {| l := 2; y := [Some 1%Q; Some (-1)%Q]; x := [Some 0; Some 4] |}
                 [ {| index := Some 0%Z; value := Some 20%Q |};
                   {| index := Some 1%Z; value := Some 30%Q |};
                   {| index := Some 2%Z; value := None |};
                   {| index := Some (-1)%Z; value := None |};
                   {| index := Some 0%Z; value := None |};
                   {| index := Some 1%Z; value := None |};
                   {| index := Some 2%Z; value := None |};
                   {| index := Some (-1)%Z; value := None |} ] ()).
Proof.
  cbv zeta. split; [vm_compute; discriminate|].
  split; [vm_compute; reflexivity|].
  eexists. vm_compute. reflexivity.
Qed.

(** ** [getWeights] *)

Section Weights.
Context `{LibSVM}.

(** Whatever the model, [getWeights] returns a two-channel matrix of zeros
    whose size is [_fVecShape]. *)
Lemma getWeights_zero t a model :
  _model t = Some (a, model) →
  ∃ w, getWeights t = Ret w ∧
       rows w = width (_fVecShape t) ∧ cols w = height (_fVecShape t) ∧
       channels w = 2 ∧ Forall (λ v, v = 0%Q) (data w).
Proof.
  intros E. unfold getWeights. rewrite E. eexists. split; [reflexivity|].
  cbn. repeat split. apply Forall_replicate. reflexivity.
Qed.

End Weights.

(** C2: after training on the two [2 x 1] descriptors [(3, 5)] and [(4, 6)]
    with a linear kernel, [getWeights] returns an empty two-channel matrix
    (the size of [_fVecShape], which [train] never sets), not a [2 x 1]
    template; the sum of [coefficient * supportVector] over the support
    vectors of that model is not zero. *)
Theorem getWeights_of_trained_is_zero :
  let r := @train toy_libsvm [1%Q; (-1)%Q]
             [column [3%Q; 5%Q]; column [4%Q; 6%Q]] () (start ∅) in
  fst r = Ret () ∧
  ∃ a model,
    _model (this (snd r)) = Some (a, model) ∧
    kernel_type model = LINEAR ∧
    @getWeights (this (snd r)) =
      Ret {| rows := 0; cols := 0; channels := 2; data := [] |} ∧
    Forall2 Qeq (primal_weights model 2) [(-1)%Q; 0%Q].
Proof.
  cbv zeta. split; [vm_compute; reflexivity|].
  eexists _, _. split; [vm_compute; reflexivity|].
  split; [reflexivity|]. split; [vm_compute; reflexivity|].
  vm_compute. repeat constructor.
Qed.

(** ** Ownership of the model and of the node buffer *)

Lemma fresh_lookup (m : gmap nat kind) : m !! fresh (dom m) = None.
Proof. apply not_elem_of_dom, is_fresh. Qed.

(** Name the next address that [alloc] hands out, keeping only the fact that
    it is not live. *)
Ltac name_fresh p Hp :=
  match goal with
  | |- context [fresh (dom ?m)] =>
      lazymatch m with
      | context [fresh _] => fail
      | _ => pose proof (fresh_lookup m) as Hp;
             set (p := fresh (dom m)) in *; clearbody p
      end
  end.

Ltac heap_facts :=
  repeat (rewrite ?lookup_insert, ?lookup_delete in * );
  repeat case_decide; subst; try congruence; try done.

Ltac count_events :=
  cbn [live at_most_one];
  repeat (case_decide; try discriminate);
  repeat split; try done; lia.

Section Ownership.
Context `{LibSVM}.

(** A [train] that gets past its checks fills a new buffer by the loops,
    installs the model that the solver returns for it, and keeps the
    discipline. *)
Lemma train_spec labels fset parameter s f0 h :
  invariant h s → length labels = length fset → fset !! 0 = Some f0 →
  ∃ s' filled pm pd,
    train labels fset parameter s = (Ret (), s') ∧ invariant h s' ∧
    fill_problem (length labels) (feature_dim f0) labels fset = Some filled ∧
    this s' =
      {| _model := Some (pm, svm_train {| l := length labels; y := fy filled;
                                          x := fx filled |}
                                       (fdata filled) parameter);
         _data := Some (pd, fdata filled);
         _fVecShape := _fVecShape (this s) |}.
Proof.
  intros (Hc & Ho & Lm & Ld & Am & Ad) Hlen Ef0.
  unfold train. rewrite decide_False by (intros Hne; by apply Hne). rewrite Ef0.
  destruct (fill_problem_total (feature_dim f0) labels fset Hlen) as [filled Efill].
  rewrite Efill.
  destruct s as [[mo da sh] hp lg].
  destruct Hc as [Hcm Hcd]. unfold others in Ho. cbn in *.
  destruct mo as [[a model]|], da as [[b nodes]|].
  - specialize (Hcm _ _ eq_refl). specialize (Hcd _ _ eq_refl).
    unfold_M. cbn.
    name_fresh py Hpy. name_fresh px Hpx.
    rewrite decide_True by heap_facts. cbn.
    name_fresh pd Hpd.
    rewrite decide_True by heap_facts. cbn.
    name_fresh pm Hpm.
    rewrite decide_True by heap_facts. cbn.
    rewrite decide_True by heap_facts. cbn.
    eexists _, filled, _, _. split; [reflexivity|]. cbn.
    split; [|split; reflexivity].
    unfold invariant, consistent, others. cbn.
    split; [split; intros ? ? [= <- <-]; heap_facts|].
    split. { subst h. apply map_eq. intros i. heap_facts. }
    count_events.
  - specialize (Hcm _ _ eq_refl).
    unfold_M. cbn.
    name_fresh py Hpy. name_fresh px Hpx. name_fresh pd Hpd.
    rewrite decide_True by heap_facts. cbn.
    name_fresh pm Hpm.
    rewrite decide_True by heap_facts. cbn.
    rewrite decide_True by heap_facts. cbn.
    eexists _, filled, _, _. split; [reflexivity|]. cbn.
    split; [|split; reflexivity].
    unfold invariant, consistent, others. cbn.
    split; [split; intros ? ? [= <- <-]; heap_facts|].
    split. { subst h. apply map_eq. intros i. heap_facts. }
    count_events.
  - specialize (Hcd _ _ eq_refl).
    unfold_M. cbn.
    name_fresh py Hpy. name_fresh px Hpx.
    rewrite decide_True by heap_facts. cbn.
    name_fresh pd Hpd. name_fresh pm Hpm.
    rewrite decide_True by heap_facts. cbn.
    rewrite decide_True by heap_facts. cbn.
    eexists _, filled, _, _. split; [reflexivity|]. cbn.
    split; [|split; reflexivity].
    unfold invariant, consistent, others. cbn.
    split; [split; intros ? ? [= <- <-]; heap_facts|].
    split. { subst h. apply map_eq. intros i. heap_facts. }
    count_events.
  - unfold_M. cbn.
    name_fresh py Hpy. name_fresh px Hpx.
    name_fresh pd Hpd. name_fresh pm Hpm.
    rewrite decide_True by heap_facts. cbn.
    rewrite decide_True by heap_facts. cbn.
    eexists _, filled, _, _. split; [reflexivity|]. cbn.
    split; [|split; reflexivity].
    unfold invariant, consistent, others. cbn.
    split; [split; intros ? ? [= <- <-]; heap_facts|].
    split. { subst h. apply map_eq. intros i. heap_facts. }
    count_events.
Qed.

(** [train] keeps the discipline whatever its outcome, and its only
    undefined behaviour is [fset[0]] on an empty batch. *)
Lemma train_invariant labels fset parameter s h :
  invariant h s →
  invariant h (snd (train labels fset parameter s)) ∧
  (fst (train labels fset parameter s) = Undefined → labels = [] ∧ fset = []).
Proof.
  intros Hinv.
  destruct (decide (length labels = length fset)) as [Hlen|Hne].
  - destruct (fset !! 0) as [f0|] eqn:Ef0.
    + destruct (train_spec labels fset parameter s f0 h Hinv Hlen Ef0)
        as (s' & filled & pm & pd & -> & Hinv' & _). cbn.
      split; [done|discriminate].
    + unfold train. rewrite decide_False by (intros Hne; by apply Hne).
      rewrite Ef0. cbn. split; [done|]. intros _.
      destruct fset; [|discriminate]. by destruct labels.
  - unfold train. rewrite decide_True by done. cbn. split; [done|discriminate].
Qed.

Lemma load_invariant fp s h :
  invariant h s →
  invariant h (snd (load fp s)) ∧ fst (load fp s) ≠ Undefined.
Proof.
  intros (Hc & Ho & Lm & Ld & Am & Ad).
  destruct (svm_load_model_fp fp) as [model|] eqn:E.
  - rewrite (load_succeeds s fp model Hc E). cbn. split; [|discriminate].
    pose proof (fresh_lookup (others s)) as Hp.
    rewrite Ho in *.
    set (p := fresh (dom h)) in *. clearbody p.
    unfold invariant, consistent, others, deinit_log. cbn.
    split; [split; intros ? ? [= <- <-]; heap_facts|].
    split. { apply map_eq. intros i. heap_facts. }
    clear Hc. destruct s as [[[[a m]|] [[b d]|] sh] hp lg]; cbn in *;
      count_events.
  - rewrite (load_fails s fp Hc E). cbn. split; [|discriminate].
    unfold invariant, consistent, deinit_log. cbn.
    split; [split; intros ? ? [=]|].
    split; [exact Ho|].
    clear Hc. destruct s as [[[[a m]|] [[b d]|] sh] hp lg]; cbn in *;
      count_events.
Qed.

Lemma exec_invariant c s h :
  invariant h s →
  invariant h (snd (exec c s)) ∧
  (fst (exec c s) = Undefined → ∃ parameter, c = CallTrain [] [] parameter).
Proof.
  intros Hinv. destruct c as [labels fset parameter | fp | fs filename]; cbn.
  - destruct (train_invariant labels fset parameter s h Hinv) as [Hi Hu].
    split; [done|]. intros Eu. destruct (Hu Eu) as [-> ->]. by eexists.
  - destruct (load_invariant fp s h Hinv) as [Hi Hu]. split; [done|].
    intros Eu. by destruct Hu.
  - unfold load_file. destruct (fs !! filename) as [f|].
    + destruct (load_invariant f s h Hinv) as [Hi Hu]. split; [done|].
      intros Eu. by destruct Hu.
    + cbn. split; [done|discriminate].
Qed.

Lemma run_invariant calls s h :
  invariant h s →
  invariant h (snd (run calls s)) ∧
  (fst (run calls s) = Ret () ∨
   fst (run calls s) = Undefined ∧ ∃ parameter, CallTrain [] [] parameter ∈ calls).
Proof.
  revert s. induction calls as [|c calls IH]; intros s Hinv.
  - cbn. split; [done | by left].
  - cbn. destruct (exec_invariant c s h Hinv) as [Hi Hu].
    destruct (exec c s) as [[[]| e |] s'] eqn:E; cbn in *.
    + destruct (IH s' Hi) as [Hi' [Hr | [Hr [p Hp]]]]; split; try done.
      * by left.
      * right. split; [done|]. exists p. by apply list_elem_of_further.
    + destruct (IH s' Hi) as [Hi' [Hr | [Hr [p Hp]]]]; split; try done.
      * by left.
      * right. split; [done|]. exists p. by apply list_elem_of_further.
    + split; [done|]. right. split; [done|].
      destruct (Hu eq_refl) as [p ->]. exists p. apply list_elem_of_here.
Qed.

(** The destructor releases what is held and nothing else. *)
Lemma destroy_spec s h :
  invariant h s →
  ∃ s', destroy s = (Ret (), s') ∧ invariant h s' ∧ mem s' = h ∧
        _model (this s') = None ∧ _data (this s') = None.
Proof.
  intros (Hc & Ho & Lm & Ld & Am & Ad). unfold destroy.
  rewrite (deinit_spec s Hc). eexists. split; [reflexivity|]. cbn.
  split; [|done].
  unfold invariant, consistent, deinit_log. cbn.
  split; [split; intros ? ? [=]|].
  split; [exact Ho|].
  clear Hc. destruct s as [[[[a m]|] [[b d]|] sh] hp lg]; cbn in *;
    count_events.
Qed.

Lemma invariant_start shape0 h :
  invariant h {| this := new_SupportVectorMachine shape0; mem := h; log := [] |}.
Proof.
  unfold invariant. split; [apply consistent_fresh|]. cbn. by repeat split.
Qed.

(** As long as every [new] is granted and the sizes fit an [int] (the
    [train] of section Classifier): through every sequence of [train] and
    [load] calls on a newly constructed classifier, the pointers of the
    classifier stay valid, no block leaks (the heap is the heap of the start
    plus the blocks pointed at), and at every moment of the history at most
    one model and at most one node buffer are live.  The destructor then
    returns the heap of the start.  A [new] that is refused is the subject of
    the next section. *)
Theorem one_model_one_buffer calls shape0 h :
  let r := run calls {| this := new_SupportVectorMachine shape0; mem := h; log := [] |} in
  consistent (snd r) ∧ others (snd r) = h ∧
  at_most_one KModel (log (snd r)) ∧ at_most_one KNodes (log (snd r)) ∧
  (fst r = Ret () ∨
   fst r = Undefined ∧ ∃ parameter, CallTrain [] [] parameter ∈ calls) ∧
  ∃ s', destroy (snd r) = (Ret (), s') ∧ mem s' = h ∧
        _model (this s') = None ∧ _data (this s') = None ∧
        live KModel (log s') = 0%Z ∧ live KNodes (log s') = 0%Z ∧
        at_most_one KModel (log s') ∧ at_most_one KNodes (log s').
Proof.
  cbv zeta.
  destruct (run_invariant calls _ h (invariant_start shape0 h)) as [Hinv Hout].
  pose proof Hinv as (Hc & Ho & Lm & Ld & Am & Ad).
  repeat (split; [done|]).
  destruct (destroy_spec _ h Hinv) as (s' & E & (_ & _ & Lm' & Ld' & Am' & Ad') & Hm & Em & Ed).
  exists s'. rewrite Em in Lm'. rewrite Ed in Ld'. by repeat split.
Qed.

End Ownership.

(** ** A re-train whose buffer is refused *)

Section Refused.
Context `{LibSVM}.

(** C7: a classifier that holds a node buffer is re-trained on a batch that
    passes the size check, and the two arrays of the problem are granted but
    the node buffer is not: its [int] length has wrapped to a negative number
    ([std::bad_array_new_length]), or the allocator has no room
    ([std::bad_alloc]).  Then [train] leaves by that exception with the model
    as it was, [_data] still pointing at the buffer that [delete [] _data]
    has just released (the pointer is not nulled), and the two arrays of the
    problem live and pointed at by nothing: the buffer held before is
    released, but no replacement is installed, the arrays leak, and the
    destructor releases the buffer a second time, which is undefined
    behaviour. *)
Theorem retrain_refused_double_free grants labels fset parameter s b nodes f0 :
  consistent s → _data (this s) = Some (b, nodes) →
  length labels = length fset → fset !! 0 = Some f0 →
  let nVecs := to_int (Z.of_nat (length labels)) in
  let dim := to_int (Z.of_nat (width (Mat_size f0)) * Z.of_nat (height (Mat_size f0))) in
  let size := to_int (nVecs * to_int (dim + 1)) in
  (0 ≤ nVecs)%Z → grants KLabels nVecs = true → grants KRows nVecs = true →
  (size < 0)%Z ∨ grants KNodes size = false →
  ∃ s' py px,
    train_int grants labels fset parameter s =
      (Ret (inl (if (size <? 0)%Z then bad_array_new_length else bad_alloc)), s') ∧
    _model (this s') = _model (this s) ∧
    _data (this s') = Some (b, nodes) ∧ mem s' !! b = None ∧
    py ≠ px ∧ mem s !! py = None ∧ mem s !! px = None ∧
    mem s' !! py = Some KLabels ∧ mem s' !! px = Some KRows ∧
    fst (destroy s') = Undefined.
Proof.
  intros [Hcm Hcd] Ed Hlen Ef0 nVecs dim size Hn Gy Gx Hsize.
  unfold train_int. rewrite decide_False by (intros Hne; by apply Hne).
  rewrite Ef0. fold nVecs dim size. unfold new_array.
  assert ((nVecs <? 0)%Z = false) as -> by (apply Z.ltb_ge; lia).
  rewrite Gy, Gx.
  destruct s as [[mo da sh] hp lg]. cbn in Ed, Hcm, Hcd |- *. subst da.
  specialize (Hcd _ _ eq_refl).
  unfold_M. cbn.
  name_fresh py Hpy. name_fresh px Hpx.
  rewrite decide_True by heap_facts. cbn.
  set (e := if (size <? 0)%Z then bad_array_new_length else bad_alloc).
  set (s' := {| this := {| _model := mo; _data := Some (b, nodes); _fVecShape := sh |};
               mem := delete b (<[px:=KRows]> (<[py:=KLabels]> hp));
               log := EFree KNodes b :: EAlloc KRows px :: EAlloc KLabels py :: lg |}).
  exists s', py, px. split.
  { subst e. destruct (size <? 0)%Z eqn:El; [reflexivity|].
    destruct Hsize as [Hs | ->]; [apply Z.ltb_ge in El; lia | reflexivity]. }
  subst s'. cbn.
  repeat (split; [solve [heap_facts]|]).
  destruct mo as [[a model]|]; unfold destroy; unfold_M; cbn.
  - specialize (Hcm _ _ eq_refl).
    rewrite decide_True by heap_facts. cbn.
    rewrite decide_False by heap_facts. reflexivity.
  - rewrite decide_False by heap_facts. reflexivity.
Qed.

End Refused.

Lemma holding_buffer_consistent : consistent holding_buffer.
Proof.
  split; intros a v E; cbn in E; injection E as <- <-; reflexivity.
Qed.

Lemma retrain_refused_witness :
  ∃ s', @train_int toy_libsvm no_room_for_nodes [1%Q] [column [3%Q; 4%Q]] ()
          holding_buffer = (Ret (inl bad_alloc), s') ∧
        _data (this s') = _data (this holding_buffer) ∧
        mem s' !! 1 = None ∧
        fst (destroy s') = Undefined.
Proof.
  destruct (@retrain_refused_double_free toy_libsvm no_room_for_nodes [1%Q]
              [column [3%Q; 4%Q]] () holding_buffer 1 (dense_nodes [2%Q])
              (column [3%Q; 4%Q]) holding_buffer_consistent eq_refl eq_refl eq_refl)
    as (s' & py & px & E & _ & Ed & Hb & _ & _ & _ & _ & _ & Hd).
  - vm_compute. discriminate.
  - reflexivity.
  - reflexivity.
  - right. reflexivity.
  - exists s'. repeat split; assumption.
Defined.

(** The same with every request granted, on one descriptor of
    [46341 x 46341] cells: [dim] wraps and the length of the buffer is
    negative. *)
Lemma retrain_on_46341_square (values : list Q) :
  ∃ s', @train_int toy_libsvm (λ _ _, true) [1%Q]
          [{| rows := Z.to_nat 46341; cols := Z.to_nat 46341; channels := 1;
              data := values |}] ()
          holding_buffer = (Ret (inl bad_array_new_length), s') ∧
        _data (this s') = _data (this holding_buffer) ∧
        fst (destroy s') = Undefined.
Proof.
  eexists. split; [vm_compute; reflexivity|].
  split; vm_compute; reflexivity.
Qed.

(** From construction to destruction: a first [train] that is granted
    everything, a second one whose node buffer is refused, the destructor. *)
Lemma train_then_refused_retrain :
  let batch := [column [3%Q; 4%Q]] in
  let r1 := @train_int toy_libsvm (λ _ _, true) [1%Q] batch () (start ∅) in
  let r2 := @train_int toy_libsvm no_room_for_nodes [1%Q] batch () (snd r1) in
  fst r1 = Ret (inr ()) ∧
  fst r2 = Ret (inl bad_alloc) ∧
  _data (this (snd r2)) = _data (this (snd r1)) ∧
  (∃ b nodes, _data (this (snd r2)) = Some (b, nodes) ∧ mem (snd r2) !! b = None) ∧
  size (filter (λ kv, kv.2 = KLabels ∨ kv.2 = KRows) (mem (snd r2))) = 2 ∧
  fst (destroy (snd r2)) = Undefined.
Proof.
  cbv zeta. split; [vm_compute; reflexivity|].
  split; [vm_compute; reflexivity|].
  split; [vm_compute; reflexivity|].
  split; [eexists _, _; split; vm_compute; reflexivity|].
  split; vm_compute; reflexivity.
Qed.

(** An [int] that fits is itself. *)
Lemma to_int_fits (z : Z) : (0 ≤ z < 2 ^ 31)%Z → to_int z = z.
Proof.
  intros Hz. unfold to_int. rewrite Z.mod_small by lia. lia.
Qed.

Section Agreement.
Context `{LibSVM}.

(** Where every request is granted and the sizes fit an [int], [train_int]
    is [train]. *)
Lemma train_int_granted grants (labels : list Q) (fset : FeatureCollection)
    parameter s :
  (∀ k n, grants k n = true) →
  (Z.of_nat (length labels) *
     (Z.of_nat (from_option feature_dim 0%nat (fset !! 0%nat)) + 1) < 2 ^ 31)%Z →
  train_int grants labels fset parameter s =
    (match fst (train labels fset parameter s) with
     | Ret _ => Ret (inr ())
     | Throw e => Throw e
     | Undefined => Undefined
     end, snd (train labels fset parameter s)).
Proof.
  intros Hg Hfit. unfold train_int, train.
  destruct (decide (length labels ≠ length fset)) as [|Hlen]; [reflexivity|].
  destruct (fset !! 0) as [f0|] eqn:Ef0; [|reflexivity].
  cbn [from_option] in Hfit. unfold feature_dim in *.
  assert (length labels ≠ 0) by (intros E; destruct fset; [discriminate|]; cbn in Hlen; lia).
  rewrite (to_int_fits (Z.of_nat (length labels))) by nia.
  rewrite <- Nat2Z.inj_mul.
  rewrite (to_int_fits (Z.of_nat _)) by nia.
  rewrite (to_int_fits (Z.of_nat _ + 1)) by nia.
  rewrite (to_int_fits (_ * _)) by nia.
  rewrite Nat2Z.id.
  unfold new_array. rewrite !Hg.
  assert ((Z.of_nat (length labels) <? 0)%Z = false) as -> by (apply Z.ltb_ge; lia).
  match goal with |- context [(?z <? 0)%Z] =>
    assert ((z <? 0)%Z = false) as -> by (apply Z.ltb_ge; lia) end.
  unfold_M. cbn.
  destruct (_data (this s)) as [[b d]|]; cbn.
  - case_decide; cbn; [|reflexivity].
    rewrite decide_True by lia.
    destruct (fill_problem _ _ _ _) as [filled|]; cbn; [|reflexivity].
    repeat first [ reflexivity | progress cbn | case_decide | case_match | simplify_eq ].
  - rewrite decide_True by lia.
    destruct (fill_problem _ _ _ _) as [filled|]; cbn; [|reflexivity].
    repeat first [ reflexivity | progress cbn | case_decide | case_match | simplify_eq ].
Qed.

End Agreement.



(** ** Sums of rationals *)

Lemma Qsum_nil : Qsum [] = 0%Q.
Proof. reflexivity. Qed.

Lemma Qsum_cons (a : Q) (qs : list Q) : Qsum (a :: qs) = (a + Qsum qs)%Q.
Proof. reflexivity. Qed.

Lemma Qsum_app (l1 l2 : list Q) : (Qsum (l1 ++ l2) == Qsum l1 + Qsum l2)%Q.
Proof.
  induction l1 as [|a l1 IH]; cbn [app].
  - rewrite Qsum_nil. ring.
  - rewrite !Qsum_cons, IH. ring.
Qed.

Lemma Qsum_ext (f g : nat → Q) (idx : list nat) :
  (∀ i, i ∈ idx → (f i == g i)%Q) →
  (Qsum (map f idx) == Qsum (map g idx))%Q.
Proof.
  induction idx as [|i idx IH]; intros Hfg; cbn [map]; [reflexivity|].
  rewrite !Qsum_cons. rewrite (Hfg i) by apply list_elem_of_here.
  rewrite IH; [reflexivity|]. intros j Hj. apply Hfg. by apply list_elem_of_further.
Qed.

Lemma Qsum_seq_ext (f g : nat → Q) (n : nat) :
  (∀ i, i < n → (f i == g i)%Q) →
  (Qsum (map f (seq 0 n)) == Qsum (map g (seq 0 n)))%Q.
Proof.
  intros Hfg. apply Qsum_ext. intros i Hi. apply Hfg.
  apply elem_of_seq in Hi. lia.
Qed.

Lemma Qsum_seq_S (f : nat → Q) (n : nat) :
  (Qsum (map f (seq 0 (S n))) == Qsum (map f (seq 0 n)) + f n)%Q.
Proof.
  rewrite seq_S, map_app, Qsum_app. cbn [map plus].
  rewrite Qsum_cons, Qsum_nil. ring.
Qed.

Lemma Qsum_plus (f g : nat → Q) (idx : list nat) :
  (Qsum (map (λ i, f i + g i) idx) == Qsum (map f idx) + Qsum (map g idx))%Q.
Proof.
  induction idx as [|i idx IH]; cbn [map].
  - rewrite Qsum_nil. ring.
  - rewrite !Qsum_cons, IH. ring.
Qed.

Lemma Qsum_zero (idx : list nat) : (Qsum (map (λ _, 0) idx) == 0)%Q.
Proof.
  induction idx as [|i idx IH]; cbn [map]; [reflexivity|].
  rewrite Qsum_cons, IH. ring.
Qed.

(** Two nested sums commute. *)
Lemma Qsum_swap (f : nat → nat → Q) (n m : nat) :
  (Qsum (map (λ i, Qsum (map (λ j, f i j) (seq 0 m))) (seq 0 n)) ==
   Qsum (map (λ j, Qsum (map (λ i, f i j) (seq 0 n))) (seq 0 m)))%Q.
Proof.
  induction n as [|n IH].
  - cbn. by rewrite Qsum_zero.
  - rewrite Qsum_seq_S, IH, <- Qsum_plus.
    apply Qsum_seq_ext. intros j _. by rewrite Qsum_seq_S.
Qed.

(** A sum over [a * b] indices is a sum of [a] sums over [b] indices. *)
Lemma Qsum_seq_mul (f : nat → Q) (a b : nat) :
  (Qsum (map f (seq 0 (a * b))) ==
   Qsum (map (λ i, Qsum (map (λ j, f (i * b + j)%nat) (seq 0 b))) (seq 0 a)))%Q.
Proof.
  induction a as [|a IH]; [reflexivity|].
  rewrite Qsum_seq_S, <- IH.
  replace (S a * b) with (a * b + b) by lia.
  rewrite seq_app, map_app, Qsum_app. cbn [plus].
  apply Qplus_comp; [reflexivity|].
  replace (seq (a * b) b) with (Nat.add (a * b) <$> seq 0 b)
    by (rewrite fmap_add_seq; f_equal; lia).
  change (map f (Nat.add (a * b) <$> seq 0 b))
    with (f <$> (Nat.add (a * b) <$> seq 0 b)).
  rewrite <- list_fmap_compose. reflexivity.
Qed.

(** The running sum of a loop is the sum of its terms. *)
Lemma foldl_Qsum (f : nat → Q) (n : nat) :
  (foldl (λ acc i, acc + f i) 0 (seq 0 n) == Qsum (map f (seq 0 n)))%Q.
Proof.
  induction n as [|n IH]; [reflexivity|].
  rewrite Qsum_seq_S, seq_S, foldl_app. cbn. by rewrite IH.
Qed.

Lemma Qsum_scale (k : Q) (f : nat → Q) (idx : list nat) :
  (k * Qsum (map f idx) == Qsum (map (λ i, k * f i) idx))%Q.
Proof.
  induction idx as [|i idx IH]; cbn [map].
  - rewrite Qsum_nil. ring.
  - rewrite !Qsum_cons, <- IH. ring.
Qed.

(** ** The decision function on dense vectors *)

Lemma dense_dot_nil sum vs : dense_dot sum [] vs = sum.
Proof. reflexivity. Qed.

Lemma dense_dot_cons sum a xs b vs :
  dense_dot sum (a :: xs) (b :: vs) = dense_dot (sum + a * b)%Q xs vs.
Proof. reflexivity. Qed.

(** The accumulated dot product as a sum over the indices. *)
Lemma dense_dot_indexed (xs vs : list Q) (sum : Q) :
  length xs = length vs →
  (dense_dot sum xs vs ==
   sum + Qsum (map (λ i, default 0 (xs !! i) * default 0 (vs !! i)) (seq 0 (length xs))))%Q.
Proof.
  revert vs sum. induction xs as [|a xs IH]; intros [|b vs] sum Hlen;
    try discriminate.
  - rewrite dense_dot_nil. cbn [length seq map]. rewrite Qsum_nil. ring.
  - rewrite dense_dot_cons, IH by (cbn in Hlen; lia).
    cbn [length seq map]. rewrite Qsum_cons.
    rewrite <- fmap_S_seq.
    change (map ?f (S <$> ?l)) with (f <$> (S <$> l)).
    rewrite <- list_fmap_compose.
    change (Qsum (_ ∘ S <$> seq 0 (length xs)))
      with (Qsum (map (λ i, default 0 (xs !! i) * default 0 (vs !! i))%Q
                      (seq 0 (length xs)))).
    change (default 0%Q ((a :: xs) !! 0)) with a.
    change (default 0%Q ((b :: vs) !! 0)) with b.
    ring.
Qed.

Lemma nodes_from_lookup (i0 : nat) (v : list Q) (i : nat) :
  nodes_from i0 v !! i =
    (λ a, {| index := Some (Z.of_nat (i0 + i)); value := Some a |}) <$> v !! i.
Proof.
  revert i0 i. induction v as [|a v IH]; intros i0 [|i]; cbn; try done.
  - by rewrite Nat.add_0_r.
  - rewrite IH. by rewrite Nat.add_succ_r.
Qed.

Lemma nodes_from_length (i0 : nat) (v : list Q) : length (nodes_from i0 v) = length v.
Proof. revert i0. induction v as [|a v IH]; intros i0; cbn; [done|]. by rewrite IH. Qed.

(** [predict] builds the dense encoding of a column vector. *)
Lemma predict_nodes_dense (v : list Q) : predict_nodes (column v) = dense_nodes v.
Proof.
  unfold predict_nodes, dense_nodes, feature_dim. cbn. f_equal.
  apply list_eq. intros i.
  rewrite nodes_from_lookup, list_lookup_fmap.
  destruct (decide (i < length v)) as [Hi|Hi].
  - rewrite lookup_seq_lt by lia. cbn. unfold Mat_at. cbn.
    replace (i * 1 + 0) with i by lia.
    destruct (lookup_lt_is_Some_2 v i Hi) as [a ->]. reflexivity.
  - rewrite lookup_seq_ge by lia. rewrite lookup_ge_None_2 by lia. reflexivity.
Qed.

(** libsvm's sparse dot product of two dense encodings of one length is the
    dense dot product. *)
Lemma dot_from_dense (xs vs : list Q) (i0 : nat) (sum : Q) :
  length xs = length vs →
  dot_from sum (nodes_from i0 xs ++ [{| index := Some (-1)%Z; value := None |}])
               (nodes_from i0 vs ++ [{| index := Some (-1)%Z; value := None |}])
  = Some (dense_dot sum xs vs).
Proof.
  revert vs i0 sum. induction xs as [|a xs IH]; intros [|b vs] i0 sum Hlen;
    try discriminate.
  - reflexivity.
  - cbn [nodes_from app]. cbn [dot_from index value mbind option_bind].
    assert ((Z.of_nat i0 =? -1)%Z = false) as -> by (apply Z.eqb_neq; lia).
    rewrite Z.eqb_refl. rewrite dense_dot_cons.
    apply IH. cbn in Hlen. lia.
Qed.

Section Decision.
Context `{LibSVM}.
Implicit Types (model : svm_model) (coefs : list Q) (svs : list (list Q)).

Lemma sv_length svs dim s :
  Forall (λ v, length v = dim) svs →
  s < length svs → length (default [] (svs !! s)) = dim.
Proof.
  intros Hdim Hs. destruct (lookup_lt_is_Some_2 svs s Hs) as [v Ev]. rewrite Ev. cbn.
  by eapply (Forall_lookup_1 _ _ _ _ Hdim).
Qed.

(** The loop of the decision function over the first [n] support vectors. *)
Lemma decision_prefix model coefs svs b dim (xs : list Q) (n : nat) :
  dense_linear_model model coefs svs b dim →
  length xs = dim → n ≤ length svs →
  foldl (decision_sum model (dense_nodes xs)) (Some 0%Q) (seq 0 n) =
  Some (foldl (λ acc s, acc + default 0 (coefs !! s) *
                              dense_dot 0 xs (default [] (svs !! s)))%Q
              0%Q (seq 0 n)).
Proof.
  intros (Hkernel & Hclass & Hrho & Hl & Hcoef & Hcoefs & HSV & Hdim) Hx.
  induction n as [|n IH]; intros Hn; [reflexivity|].
  rewrite !seq_S, !foldl_app, IH by lia. cbn [foldl plus].
  unfold decision_sum. cbn [mbind option_bind]. rewrite Hcoef. cbn [mbind option_bind].
  destruct (lookup_lt_is_Some_2 coefs n) as [c Ec]; [lia|].
  destruct (lookup_lt_is_Some_2 svs n) as [v Ev]; [lia|].
  rewrite Ec, HSV. cbn [mbind option_bind].
  change (map dense_nodes svs) with (dense_nodes <$> svs).
  rewrite list_lookup_fmap, Ev. cbn [fmap option_fmap option_map mbind option_bind].
  rewrite Hkernel. cbn [k_function]. unfold dot, dense_nodes.
  rewrite dot_from_dense.
  - reflexivity.
  - rewrite Hx. symmetry. by eapply (Forall_lookup_1 _ _ _ _ Hdim).
Qed.

Lemma predict_values_dense model coefs svs b dim (xs : list Q) :
  dense_linear_model model coefs svs b dim →
  length xs = dim →
  svm_predict_values model (dense_nodes xs) =
  Some (foldl (λ acc s, acc + default 0 (coefs !! s) *
                              dense_dot 0 xs (default [] (svs !! s)))%Q
              0%Q (seq 0 (length svs)) - b)%Q.
Proof.
  intros Hm Hx.
  pose proof Hm as (Hkernel & Hclass & Hrho & Hl & Hcoef & Hcoefs & HSV & Hdim).
  unfold svm_predict_values. rewrite decide_True by done.
  rewrite Hl, (decision_prefix model coefs svs b dim) by done.
  cbn [mbind option_bind]. rewrite Hrho. reflexivity.
Qed.

Lemma sv_values_dense (v : list Q) : sv_values (dense_nodes v) (length v) = v.
Proof.
  unfold sv_values, dense_nodes. apply list_eq. intros i.
  change (map ?f ?l) with (f <$> l). rewrite list_lookup_fmap.
  destruct (decide (i < length v)) as [Hi|Hi].
  - rewrite lookup_seq_lt by lia. cbn [fmap option_fmap option_map plus].
    rewrite lookup_app_l by (rewrite nodes_from_length; lia).
    rewrite nodes_from_lookup.
    destruct (lookup_lt_is_Some_2 v i Hi) as [a ->]. reflexivity.
  - rewrite lookup_seq_ge by lia. rewrite lookup_ge_None_2 by lia. reflexivity.
Qed.

(** The template after the first [n] support vectors: entry [i] is the sum
    of [coefficient * supportVector[i]] over them. *)
Lemma weights_prefix model coefs svs b dim (n : nat) :
  dense_linear_model model coefs svs b dim →
  n ≤ length svs →
  let w := foldl (λ w s,
                    add_scaled (default 0%Q (sv_coef model !! 0 ≫= (.!! s)))
                               (sv_values (default [] (SV model !! s)) dim) w)
                 (replicate dim 0%Q) (seq 0 n) in
  length w = dim ∧
  ∀ i, i < dim →
    (default 0 (w !! i) ==
     Qsum (map (λ s, default 0 (coefs !! s) * default 0 (default [] (svs !! s) !! i))
               (seq 0 n)))%Q.
Proof.
  intros (Hkernel & Hclass & Hrho & Hl & Hcoef & Hcoefs & HSV & Hdim).
  induction n as [|n IH]; intros Hn; cbv zeta.
  - cbn [seq foldl map]. rewrite length_replicate. split; [done|].
    intros i Hi. rewrite lookup_replicate_2 by done. reflexivity.
  - destruct IH as [Hlen IH]; [lia|].
    rewrite seq_S, foldl_app. cbn [foldl plus].
    set (w := foldl _ _ (seq 0 n)) in *.
    destruct (lookup_lt_is_Some_2 svs n) as [v Ev]; [lia|].
    assert (length v = dim) as Hv by (by eapply (Forall_lookup_1 _ _ _ _ Hdim)).
    rewrite Hcoef, HSV. cbn [mbind option_bind].
    change (map dense_nodes svs) with (dense_nodes <$> svs).
    rewrite list_lookup_fmap, Ev. cbn [fmap option_fmap option_map default id].
    assert (sv_values (dense_nodes v) dim = v) as ->
      by (rewrite <- Hv; apply sv_values_dense).
    unfold add_scaled. split.
    + rewrite length_zip_with. lia.
    + intros i Hi. rewrite map_app, Qsum_app. cbn [map].
      rewrite Qsum_cons, Qsum_nil, Ev. cbn [default].
      rewrite <- IH by done.
      rewrite lookup_zip_with.
      destruct (lookup_lt_is_Some_2 w i) as [wi Ewi]; [lia|].
      destruct (lookup_lt_is_Some_2 v i) as [vi Evi]; [lia|].
      rewrite Ewi. cbn. rewrite !Evi. cbn. ring.
Qed.

(** The decision sum of a dense vector is its dot product with the primal
    weights. *)
Lemma decision_as_template model coefs svs b dim (xs : list Q) :
  dense_linear_model model coefs svs b dim →
  length xs = dim →
  (foldl (λ acc s, acc + default 0 (coefs !! s) *
                         dense_dot 0 xs (default [] (svs !! s)))
         0 (seq 0 (length svs)) ==
   Qsum (map (λ i, default 0 (xs !! i) *
                   default 0 (primal_weights model dim !! i)) (seq 0 dim)))%Q.
Proof.
  intros Hm Hx.
  pose proof Hm as (Hkernel & Hclass & Hrho & Hl & Hcoef & Hcoefs & HSV & Hdim).
  rewrite (foldl_Qsum (λ s, default 0 (coefs !! s) *
                            dense_dot 0 xs (default [] (svs !! s)))%Q).
  transitivity
    (Qsum (map (λ s, Qsum (map (λ i, default 0 (coefs !! s) *
                                     (default 0 (xs !! i) *
                                      default 0 (default [] (svs !! s) !! i)))
                               (seq 0 dim))) (seq 0 (length svs))))%Q.
  { apply Qsum_seq_ext. intros s Hs.
    rewrite dense_dot_indexed by (rewrite (sv_length svs dim); done).
    rewrite Hx, Qplus_0_l. apply Qsum_scale. }
  rewrite Qsum_swap. apply Qsum_seq_ext. intros i Hi.
  destruct (weights_prefix model coefs svs b dim (length svs)) as [_ Hw];
    [done..|].
  unfold primal_weights. rewrite Hl, Hw by done.
  rewrite Qsum_scale. apply Qsum_seq_ext. intros s _. ring.
Qed.

End Decision.


(** ** Windows of a descriptor map *)

(** A concatenation of [a] blocks of [b] elements, read at [i * b + j]. *)
Lemma bind_seq_blocks {A} (g : nat → list A) (a b : nat) :
  (∀ i, length (g i) = b) →
  length (seq 0 a ≫= g) = a * b ∧
  ∀ i j, i < a → j < b → (seq 0 a ≫= g) !! (i * b + j) = g i !! j.
Proof.
  intros Hg. induction a as [|a [IHlen IH]].
  - split; [done|]. intros i j Hi. lia.
  - rewrite seq_S, bind_app. cbn [plus mbind list_bind]. rewrite app_nil_r.
    split; [rewrite length_app, IHlen, Hg; lia|].
    intros i j Hi Hj. destruct (decide (i = a)) as [->|Hne].
    + rewrite lookup_app_r by lia. f_equal. lia.
    + rewrite lookup_app_l by nia. apply IH; lia.
Qed.

Lemma crop_data (feat : Mat) (r c h w : nat) :
  let xs := data (crop feat r c h w) in
  length xs = h * w * channels feat ∧
  ∀ dy dx ch, dy < h → dx < w → ch < channels feat →
    xs !! ((dy * w + dx) * channels feat + ch) =
      Some (Mat_elem feat (r + dy) (c + dx) ch).
Proof.
  cbv zeta. unfold crop. cbn [data column].
  set (D := channels feat).
  assert (∀ dy dx,
    length (seq 0 D ≫= λ ch, [Mat_elem feat (r + dy) (c + dx) ch]) = D * 1 ∧
    ∀ ch z, ch < D → z < 1 →
      (seq 0 D ≫= λ ch, [Mat_elem feat (r + dy) (c + dx) ch]) !! (ch * 1 + z) =
        [Mat_elem feat (r + dy) (c + dx) ch] !! z) as Hch
    by (intros dy dx; by apply bind_seq_blocks).
  assert (∀ dy,
    length (seq 0 w ≫= λ dx, seq 0 D ≫= λ ch, [Mat_elem feat (r + dy) (c + dx) ch])
      = w * D ∧
    ∀ dx ch, dx < w → ch < D →
      (seq 0 w ≫= λ dx, seq 0 D ≫= λ ch, [Mat_elem feat (r + dy) (c + dx) ch])
        !! (dx * D + ch) =
      (seq 0 D ≫= λ ch, [Mat_elem feat (r + dy) (c + dx) ch]) !! ch) as Hdx.
  { intros dy. apply bind_seq_blocks. intros dx.
    destruct (Hch dy dx) as [-> _]. lia. }
  destruct (bind_seq_blocks
              (λ dy, seq 0 w ≫= λ dx, seq 0 D ≫= λ ch,
                 [Mat_elem feat (r + dy) (c + dx) ch]) h (w * D))
    as [Hlen Hdy].
  { intros dy. by destruct (Hdx dy) as [-> _]. }
  split; [rewrite Hlen; lia|].
  intros dy dx ch Hy Hx Hc.
  replace ((dy * w + dx) * D + ch) with (dy * (w * D) + (dx * D + ch)) by lia.
  rewrite Hdy by nia.
  destruct (Hdx dy) as [_ Hd2]. rewrite Hd2 by done.
  destruct (Hch dy dx) as [_ Hz].
  specialize (Hz ch 0 Hc). rewrite Nat.mul_1_r, Nat.add_0_r in Hz.
  rewrite Hz by lia. reflexivity.
Qed.

Lemma BandSelect_at (m : Mat) (ch r c : nat) :
  r < rows m → c < cols m → grid_at (BandSelect m ch) r c = Mat_elem m r c ch.
Proof.
  intros Hr Hc. unfold grid_at, BandSelect.
  change (map ?f ?l) with (f <$> l).
  rewrite list_lookup_fmap, lookup_seq_lt by done.
  cbn [fmap option_fmap option_map mbind option_bind plus].
  rewrite list_lookup_fmap, lookup_seq_lt by done. reflexivity.
Qed.

(** A cell of the summed score map is the running sum of the per-channel
    correlations at that cell. *)
Lemma score_cell (kh kw oh ow : nat) (kernel img : nat → list (list Q))
    (n r c : nat) :
  r < oh → c < ow →
  foldl (λ acc ch, grid_add acc (correlate kh kw oh ow (kernel ch) (img ch)))
        (replicate oh (replicate ow 0%Q)) (seq 0 n) !! r ≫= (.!! c) =
  Some (foldl (λ acc ch, acc + window_dot kh kw (kernel ch) (img ch) r c)%Q
              0%Q (seq 0 n)).
Proof.
  intros Hr Hc. induction n as [|n IH].
  - cbn [seq foldl]. rewrite (lookup_replicate_2 oh) by done.
    cbn [mbind option_bind]. by rewrite lookup_replicate_2.
  - rewrite !seq_S, !foldl_app. cbn [foldl plus].
    set (acc := foldl _ _ (seq 0 n)) in *.
    unfold grid_add at 1. rewrite lookup_zip_with.
    destruct (acc !! r) as [row|] eqn:Erow; [|discriminate].
    cbn [mbind option_bind] in IH |- *.
    unfold correlate at 1. change (map ?f ?l) with (f <$> l).
    rewrite list_lookup_fmap, lookup_seq_lt by done.
    cbn [fmap option_fmap option_map mbind option_bind plus].
    rewrite lookup_zip_with, IH. cbn [mbind option_bind].
    rewrite list_lookup_fmap, lookup_seq_lt by done. reflexivity.
Qed.

Section SlidingWindow.
Context `{LibSVM}.

(** The dot product of a cropped window with the template, as the sum over
    channels of the sliding dot products of the bands. *)
Lemma window_sum (weights feat : Mat) (r c h w : nat) :
  rows weights = h → cols weights = w → channels weights = channels feat →
  r + h ≤ rows feat → c + w ≤ cols feat →
  (Qsum (map (λ i, default 0 (data (crop feat r c h w) !! i) *
                   default 0 (data weights !! i))
             (seq 0 (h * w * channels feat))) ==
   Qsum (map (λ ch, window_dot h w (BandSelect weights ch) (BandSelect feat ch) r c)
             (seq 0 (channels feat))))%Q.
Proof.
  intros Hh Hw HD Hr Hc.
  destruct (crop_data feat r c h w) as [_ Hx]. cbv zeta in Hx.
  set (D := channels feat) in *.
  set (F := λ dy dx ch,
         (Mat_elem weights dy dx ch * Mat_elem feat (r + dy) (c + dx) ch)%Q).
  transitivity
    (Qsum (map (λ dy, Qsum (map (λ dx, Qsum (map (λ ch, F dy dx ch) (seq 0 D)))
                                (seq 0 w))) (seq 0 h))).
  { rewrite (Qsum_seq_mul _ (h * w) D), (Qsum_seq_mul _ h w).
    apply Qsum_seq_ext. intros dy Hdy.
    apply Qsum_seq_ext. intros dx Hdx.
    apply Qsum_seq_ext. intros ch Hch.
    rewrite Hx by done. unfold F.
    assert (Mat_elem weights dy dx ch =
            default 0%Q (data weights !! ((dy * w + dx) * D + ch))) as ->
      by (unfold Mat_elem; by rewrite Hw, HD).
    cbn [default from_option id]. ring. }
  transitivity
    (Qsum (map (λ ch, Qsum (map (λ dy, Qsum (map (λ dx, F dy dx ch) (seq 0 w)))
                                (seq 0 h))) (seq 0 D))).
  { rewrite <- (Qsum_swap (λ dy ch, Qsum (map (λ dx, F dy dx ch) (seq 0 w)))).
    apply Qsum_seq_ext. intros dy _.
    apply (Qsum_swap (λ dx ch, F dy dx ch)). }
  apply Qsum_seq_ext. intros ch Hch. unfold window_dot.
  apply Qsum_seq_ext. intros dy Hdy.
  apply Qsum_seq_ext. intros dx Hdx.
  rewrite !BandSelect_at by lia. reflexivity.
Qed.

(** What the evaluator would give were it handed the reconstructed weights
    (which [getWeights] does not return): for a two-class linear model whose
    support vectors are dense encodings of vectors of the descriptor
    dimension, and for every position at which the window lies inside the
    descriptor map, the response of the dense path with [weight_template] is,
    as a rational number, the decision value that [predict] computes on the
    window cropped into a descriptor. *)
Theorem sliding_window_equals_predict t a model coefs svs b feat h w r c :
  _model t = Some (a, model) →
  dense_linear_model model coefs svs b (h * w * channels feat) →
  r + h ≤ rows feat → c + w ≤ cols feat →
  ∃ score response,
    predict t (crop feat r c h w) = Ret score ∧
    predictSlidingWindow (weight_template model h w (channels feat)) b feat
      !! r ≫= (.!! c) = Some response ∧
    (response == score)%Q.
Proof.
  intros Em Hm Hr Hc.
  destruct (crop_data feat r c h w) as [Hlen _]. cbv zeta in Hlen.
  eexists _, _. split; [|split].
  - unfold predict. rewrite Em.
    change (crop feat r c h w) with (column (data (crop feat r c h w))).
    rewrite predict_nodes_dense.
    rewrite (predict_values_dense model coefs svs b (h * w * channels feat)) by done.
    reflexivity.
  - unfold predictSlidingWindow. cbn [rows cols weight_template].
    pose proof (score_cell h w (rows feat + 1 - h) (cols feat + 1 - w)
                  (λ ch, BandSelect (weight_template model h w (channels feat)) ch)
                  (λ ch, BandSelect feat ch) (channels feat) r c) as Hcell.
    cbv beta in Hcell.
    change (map ?f ?l) with (f <$> l). rewrite list_lookup_fmap.
    destruct (foldl _ _ _ !! r) as [row|]; [|discriminate Hcell; lia].
    cbn [mbind option_bind fmap option_fmap option_map] in Hcell |- *.
    rewrite list_lookup_fmap, Hcell by lia. reflexivity.
  - apply Qplus_comp; [|reflexivity].
    rewrite foldl_Qsum.
    rewrite (decision_as_template model coefs svs b (h * w * channels feat))
      by done.
    symmetry.
    apply (window_sum (weight_template model h w (channels feat)) feat r c h w);
      done.
Qed.

End SlidingWindow.

Lemma sliding_window_witness :
  ∃ score response,
    @predict toy_libsvm holding_small_model (crop small_map 1 1 1 2) = Ret score ∧
    predictSlidingWindow (weight_template small_model 1 2 2) (1 # 3)%Q small_map
      !! 1 ≫= (.!! 1) = Some response ∧
    (response == score)%Q.
Proof.
  apply (@sliding_window_equals_predict toy_libsvm holding_small_model 0
           small_model [(1 # 2)%Q; (-1)%Q]
           [map inject_Z [1; 0; 2; 1]%Z; map inject_Z [0; 3; 1; 1]%Z]
           (1 # 3)%Q small_map 1 2 1 1).
  - reflexivity.
  - unfold dense_linear_model. repeat split; repeat constructor.
  - cbn. lia.
  - cbn. lia.
Defined.

(** ** The evaluator on what [getWeights] returns *)







Section ZeroTemplate.
Context `{LibSVM}.



End ZeroTemplate.


Local Open Scope Z_scope.

(** ** [scaleFactor] as a double *)

Lemma round_half_even_spec (n d : Z) :
  0 < d → 2 * Z.abs (round_half_even n d * d - n) ≤ d.
Proof.
  intros Hd. unfold round_half_even.
  pose proof (Z.div_mod n d ltac:(lia)) as E.
  pose proof (Z.mod_pos_bound n d Hd) as B.
  set (q := n / d) in *. set (r := n mod d) in *.
  destruct (2 * r <? d) eqn:E1; [apply Z.ltb_lt in E1; nia|].
  apply Z.ltb_ge in E1.
  destruct (d <? 2 * r) eqn:E2; [apply Z.ltb_lt in E2; nia|].
  apply Z.ltb_ge in E2.
  destruct (Z.even q); nia.
Qed.

Lemma round_half_even_exact (q d : Z) : 0 < d → round_half_even (q * d) d = q.
Proof.
  intros Hd. unfold round_half_even.
  rewrite Z.mod_mul, Z.div_mul by lia.
  assert ((2 * 0 <? d) = true) as -> by (apply Z.ltb_lt; lia). reflexivity.
Qed.

Lemma round_half_even_mono (n d lo hi : Z) :
  0 < d → lo * d ≤ n ≤ hi * d → lo ≤ round_half_even n d ≤ hi.
Proof.
  intros Hd [Hlo Hhi].
  assert (round_half_even n d = n / d ∨ round_half_even n d = n / d + 1 ∧ n mod d ≠ 0) as Hr.
  { unfold round_half_even.
    pose proof (Z.mod_pos_bound n d Hd) as B.
    destruct (2 * (n mod d) <? d) eqn:E1; [by left|].
    apply Z.ltb_ge in E1.
    destruct (d <? 2 * (n mod d)); [right; lia|].
    destruct (Z.even _); [by left | right; lia]. }
  pose proof (Z.div_mod n d ltac:(lia)) as E.
  pose proof (Z.mod_pos_bound n d Hd) as B.
  set (q := n / d) in *. set (r := n mod d) in *.
  assert (lo ≤ q) by (apply Z.lt_succ_r, (Z.mul_lt_mono_pos_r d); lia).
  assert (q ≤ hi) by (apply (Z.mul_le_mono_pos_r _ _ d); lia).
  destruct Hr as [-> | [-> Hne]]; [lia|].
  assert (q < hi) by (apply (Z.mul_lt_mono_pos_r d); lia). lia.
Qed.

(** A positive divisor of a power of two is a power of two. *)
Lemma divisor_of_power_of_two (n : Z) :
  0 ≤ n → ∀ a b, 0 < a → a * b = 2 ^ n → ∃ j, 0 ≤ j ∧ a = 2 ^ j.
Proof.
  intros Hn. pattern n. apply natlike_ind; [| |exact Hn]; clear n Hn.
  - intros a b Ha E. exists 0. split; [lia|]. cbn in *.
    apply Z.eq_mul_1_nonneg in E; lia.
  - intros n Hn IH a b Ha E.
    rewrite Z.pow_succ_r in E by done.
    destruct (Z.even a) eqn:Ea.
    + apply Z.even_spec in Ea as [a' ->].
      destruct (IH a' b) as (j & Hj & ->); [lia | nia |].
      exists (j + 1). split; [lia|]. rewrite Z.pow_add_r by lia. lia.
    + assert (Z.even b = true) as Eb.
      { assert (Z.even (a * b) = true) as Hab
          by (rewrite E, Z.even_mul; reflexivity).
        rewrite Z.even_mul, Ea in Hab. exact Hab. }
      apply Z.even_spec in Eb as [b' ->].
      apply (IH a b'); [lia | nia].
Qed.

Lemma power_of_two_between (j k : Z) :
  0 ≤ j → 0 ≤ k → 2 ^ k ≤ 2 ^ j < 2 ^ (k + 1) → j = k.
Proof.
  intros Hj Hk [H1 H2].
  apply Z.pow_le_mono_r_iff in H1; [|lia|lia].
  apply Z.pow_lt_mono_r_iff in H2; [|lia|lia]. lia.
Qed.

(** The double nearest to [1 / c]: the significand and the exponent. *)
Lemma nearest_double_of_inverse (c : Z) :
  0 < c →
  ∃ m p, nearest_double 1 c = (m, - p) ∧
    Z.log2 c + 52 ≤ p ≤ Z.log2 c + 53 ∧
    2 ^ 52 ≤ m ≤ 2 ^ 53 ∧
    2 * Z.abs (m * c - 2 ^ p) ≤ c ∧
    Z.abs (m * c - 2 ^ p) * 2 ^ 53 ≤ 2 ^ p ∧
    (m * c = 2 ^ p ↔ c = 2 ^ Z.log2 c).
Proof.
  intros Hc.
  pose proof (Z.log2_spec c Hc) as [Hlo Hhi].
  pose proof (Z.log2_nonneg c) as Hk.
  set (k := Z.log2 c) in *.
  unfold nearest_double. change (Z.log2 1) with 0. fold k. clearbody k.
  assert (∀ j, 0 < j → scale_by 1 c (- j) = (2 ^ j, c)) as Hscale.
  { intros j Hj. unfold scale_by.
    assert ((0 <=? - j) = false) as -> by (apply Z.leb_gt; lia).
    rewrite Z.opp_involutive, Z.mul_1_l. reflexivity. }
  replace (0 - k - 52) with (- (k + 52)) by lia.
  rewrite (Hscale (k + 52)) by lia. cbn [fst snd].
  assert (2 ^ (k + 52) = 2 ^ k * 2 ^ 52) as E52 by (apply Z.pow_add_r; lia).
  assert (2 ^ (k + 53) = 2 ^ k * 2 ^ 53) as E53 by (apply Z.pow_add_r; lia).
  assert (2 ^ (k + 1) = 2 ^ k * 2) as E1 by (rewrite Z.pow_add_r by lia; lia).
  assert (0 < 2 ^ k) as Hpk by (apply Z.pow_pos_nonneg; lia).
  destruct (2 ^ (k + 52) <? 2 ^ 52 * c) eqn:Elt.
  - apply Z.ltb_lt in Elt.
    assert (2 ^ k < c) as Hne by nia.
    replace (- (k + 52) - 1) with (- (k + 53)) by lia.
    rewrite (Hscale (k + 53)) by lia. cbn [fst snd].
    exists (round_half_even (2 ^ (k + 53)) c), (k + 53).
    split; [reflexivity|]. split; [lia|].
    pose proof (round_half_even_spec (2 ^ (k + 53)) c Hc) as Hr.
    split; [|split; [|split]].
    + apply round_half_even_mono; [done|]. nia.
    + exact Hr.
    + rewrite E53 in Hr |- *. rewrite Z.pow_succ_r in Hhi by done.
      apply Z.mul_le_mono_nonneg_r; [apply Z.pow_nonneg|]; lia.
    + split; [|lia]. intros Em.
      destruct (divisor_of_power_of_two (k + 53) ltac:(lia) c
                  (round_half_even (2 ^ (k + 53)) c) Hc) as (j & Hj & Ej); [lia|].
      rewrite Ej in Hlo, Hhi.
      assert (j = k) by (apply power_of_two_between; lia). subst j. lia.
  - apply Z.ltb_ge in Elt.
    assert (c = 2 ^ k) as Ec by nia.
    exists (2 ^ 52), (k + 52).
    split; [|split; [lia|split; [lia|]]].
    + rewrite (Hscale (k + 52)) by lia. cbn [fst snd].
      f_equal. subst c. rewrite E52, Z.mul_comm.
      apply round_half_even_exact. done.
    + subst c. rewrite E52.
      replace (2 ^ 52 * 2 ^ k - 2 ^ k * 2 ^ 52) with 0 by lia.
      split; [cbn; lia|]. split; [cbn; lia|]. split; [done|]. intros _. lia.
Qed.

(** C8 (amended statement): for a cell size [c] with [0 < c < 2 ^ 31],
    [scaleFactor()] returns the double nearest to [1 / c]: a finite value
    [m / 2 ^ p] whose significand [m] lies between [2 ^ 52] and [2 ^ 53] and
    is an integer nearest to [2 ^ p / c].  It is within the relative error
    [2 ^ -53] of [1 / c], and it is [1 / c] itself exactly when [c] is a
    power of two. *)
Theorem scaleFactor_binary64_rounds (e : HOGFeatureExtractor) :
  let c := _cellSize e in
  0 < c < 2 ^ 31 →
  ∃ m p,
    scaleFactor_binary64 e = Finite (m # Z.to_pos (2 ^ p)) ∧
    2 ^ 52 ≤ m ≤ 2 ^ 53 ∧ Z.log2 c + 52 ≤ p ≤ Z.log2 c + 53 ∧
    2 * Z.abs (m * c - 2 ^ p) ≤ c ∧
    (Qabs ((m # Z.to_pos (2 ^ p)) * inject_Z c - 1) <= 1 # 2 ^ 53)%Q ∧
    (((m # Z.to_pos (2 ^ p)) == 1 / inject_Z c)%Q ↔ c = 2 ^ Z.log2 c).
Proof.
  intros c [Hc Hmax].
  destruct (nearest_double_of_inverse c Hc) as (m & p & E & Hp & Hm & Hr & Hrel & Hex).
  pose proof (Z.log2_spec c Hc) as [Hlo Hhi].
  pose proof (Z.log2_nonneg c) as Hk.
  set (k := Z.log2 c) in *.
  assert (0 < 2 ^ p) as Hpp by (apply Z.pow_pos_nonneg; lia).
  exists m, p. split; [|split; [exact Hm|split; [exact Hp|split; [exact Hr|split]]]].
  - unfold scaleFactor_binary64. fold c.
    assert ((c =? 0) = false) as -> by (apply Z.eqb_neq; lia).
    assert ((0 <? c) = true) as -> by (apply Z.ltb_lt; lia).
    rewrite E. unfold double_value. cbn [fst snd].
    assert ((0 <=? - p) = false) as -> by (apply Z.leb_gt; lia).
    rewrite Z.opp_involutive. reflexivity.
  - assert (((m # Z.to_pos (2 ^ p)) * inject_Z c - 1 ==
             (m * c - 2 ^ p) # Z.to_pos (2 ^ p))%Q) as ->.
    { unfold Qeq, Qminus, Qplus, Qmult, Qopp, inject_Z. cbn [Qnum Qden].
      rewrite !Pos2Z.inj_mul, Z2Pos.id by done. ring. }
    unfold Qabs, Qle. cbn [Qnum Qden]. rewrite Z2Pos.id by done.
    rewrite Z.mul_1_l. exact Hrel.
  - rewrite <- Hex. unfold Qeq, Qdiv, Qmult, Qinv, inject_Z. cbn [Qnum Qden].
    destruct c as [|cp|cp] eqn:Ec; [lia| |lia].
    cbn [Qnum Qden]. rewrite Z2Pos.id by done. lia.
Qed.

Lemma scaleFactor_binary64_witness :
  ∃ m p,
    scaleFactor_binary64 (mkHOG 18 true 8) = Finite (m # Z.to_pos (2 ^ p)) ∧
    2 ^ 52 ≤ m ≤ 2 ^ 53 ∧ Z.log2 8 + 52 ≤ p ≤ Z.log2 8 + 53 ∧
    2 * Z.abs (m * 8 - 2 ^ p) ≤ 8 ∧
    (Qabs ((m # Z.to_pos (2 ^ p)) * inject_Z 8 - 1) <= 1 # 2 ^ 53)%Q ∧
    (((m # Z.to_pos (2 ^ p)) == 1 / inject_Z 8)%Q ↔ 8 = 2 ^ Z.log2 8).
Proof.
  apply (scaleFactor_binary64_rounds (mkHOG 18 true 8)).
  split; reflexivity.
Defined.

(** C8, as stated, fails at the cell size [6]: the double returned is
    [6004799503160661 / 2 ^ 55], which is not [1 / 6]. *)
Lemma scaleFactor_of_six_is_not_a_sixth :
  scaleFactor_binary64 (mkHOG 18 true 6) =
    Finite (6004799503160661 # 36028797018963968) ∧
  ¬ (6004799503160661 # 36028797018963968 == 1 / inject_Z 6)%Q.
Proof.
  split; [vm_compute; reflexivity|]. intros E. vm_compute in E. discriminate E.
Qed.

(** The cell size [0]: the quotient is [+inf]. *)
Lemma scaleFactor_of_zero (bins : Z) (unsigned : bool) :
  scaleFactor_binary64 (mkHOG bins unsigned 0) = Infinity false.
Proof. reflexivity. Qed.

(** The cell size [49]: the double returned, times [49], falls short of [1]. *)
Lemma scaleFactor_of_49 :
  ∃ q, scaleFactor_binary64 (mkHOG 18 true 49) = Finite q ∧
       (q * inject_Z 49 == 1 - (23 # 2 ^ 58))%Q.
Proof.
  eexists. split; [vm_compute; reflexivity|]. vm_compute. reflexivity.
Qed.

Local Close Scope Z_scope.

(** * Further properties of the classifier *)

Section Training.
Context `{LibSVM}.


End Training.

(** ** Reads of [at<float>] *)

Section Reads.
Context `{LibSVM}.



(** X5: [predict] on a batch returns a list of scores exactly when [predict]
    returns a score on every descriptor of the batch, and the list then holds
    these scores in the order of the batch (so it has the length of the
    batch, and is empty for an empty batch even without a model). *)
Theorem predict_all_aligned t (fset : FeatureCollection) (scores : list Q) :
  predict_all t fset = Ret scores ↔
  Forall2 (λ feature score, predict t feature = Ret score) fset scores.
Proof.
  split.
  - revert scores. induction fset as [|f fset IH]; intros scores E; cbn in E.
    + injection E as <-. constructor.
    + destruct (predict t f) as [v| e |] eqn:Ef; try discriminate.
      destruct (predict_all t fset) as [vs| e |] eqn:Eall; try discriminate.
      injection E as <-. constructor; [done | by apply IH].
  - induction 1 as [|f v fset vs Ef _ IH]; cbn; [done|].
    by rewrite Ef, IH.
Qed.

End Reads.

(** ** Replacing and releasing the model *)

Section Lifecycle.
Context `{LibSVM}.

(** X6: [_deinit] on a classifier with valid pointers returns normally and
    leaves the heap without the classifier's blocks; running [_deinit] or the
    destructor again returns normally and changes nothing: nothing is
    released twice. *)
Theorem deinit_twice s :
  consistent s →
  ∃ s1, _deinit s = (Ret (), s1) ∧ mem s1 = others s ∧
        _deinit s1 = (Ret (), s1) ∧ destroy s1 = (Ret (), s1).
Proof.
  intros Hc. rewrite (deinit_spec s Hc). eexists. split; [reflexivity|].
  repeat split.
Qed.

(** X7: after [load], whether it succeeds or throws, the model held is
    exactly what the stream decodes to (none when it does not decode), there
    is no node buffer, and the outcome of [load] and of every later [predict]
    is the same whatever the classifier held before. *)
Theorem load_forgets_history fp s1 s2 :
  consistent s1 → consistent s2 →
  fst (load fp s1) = fst (load fp s2) ∧
  snd <$> _model (this (snd (load fp s1))) = svm_load_model_fp fp ∧
  _data (this (snd (load fp s1))) = None ∧
  ∀ feature,
    predict (this (snd (load fp s1))) feature =
    predict (this (snd (load fp s2))) feature.
Proof.
  intros Hc1 Hc2. destruct (svm_load_model_fp fp) as [model|] eqn:E.
  - rewrite (load_succeeds s1 fp model Hc1 E), (load_succeeds s2 fp model Hc2 E).
    cbn. repeat split.
  - rewrite (load_fails s1 fp Hc1 E), (load_fails s2 fp Hc2 E).
    cbn. repeat split.
Qed.

(** X9: when [load(filename)] throws, either the file could not be opened,
    and then the classifier is exactly as it was (a model held before is still
    held), or the file was opened and did not decode, and then the classifier
    is as newly constructed and the blocks it held are released. *)
Theorem load_file_failure fs filename s e s' :
  consistent s →
  load_file fs filename s = (Throw e, s') →
  (fs !! filename = None ∧ e = OpenForReading filename ∧ s' = s) ∨
  (∃ f, fs !! filename = Some f ∧ svm_load_model_fp f = None ∧
        e = LoadFailed ∧
        this s' = new_SupportVectorMachine (_fVecShape (this s)) ∧
        mem s' = others s).
Proof.
  intros Hc E. unfold load_file in E.
  destruct (fs !! filename) as [f|] eqn:Ef.
  - right. exists f. destruct (svm_load_model_fp f) as [model|] eqn:El.
    + rewrite (load_succeeds s f model Hc El) in E. discriminate.
    + rewrite (load_fails s f Hc El) in E. injection E as <- <-. by repeat split.
  - left. injection E as <- <-. by repeat split.
Qed.

(** X12: on a classifier that holds a model, [getWeights] returns a matrix of
    zeros with two channels, [_fVecShape.width] rows and [_fVecShape.height]
    columns, and a [train] in between, whatever its outcome, does not change
    what [getWeights] returns. *)
Theorem getWeights_unchanged_by_train labels fset parameter s h :
  invariant h s → is_Some (_model (this s)) →
  getWeights (this (snd (train labels fset parameter s))) = getWeights (this s) ∧
  ∃ w, getWeights (this s) = Ret w ∧
       Mat_size w = {| width := height (_fVecShape (this s));
                       height := width (_fVecShape (this s)) |} ∧
       channels w = 2 ∧ Forall (λ v, v = 0%Q) (data w).
Proof.
  intros Hinv [[a model] Em]. split.
  - destruct (decide (length labels = length fset)) as [Hlen|Hne].
    + destruct (fset !! 0) as [f0|] eqn:Ef0.
      * destruct (train_spec labels fset parameter s f0 h Hinv Hlen Ef0)
          as (s' & filled & pm & pd & -> & _ & _ & Et).
        cbn. unfold getWeights. rewrite Et, Em. reflexivity.
      * unfold train. rewrite decide_False by (intros Hne; by apply Hne).
        by rewrite Ef0.
    + unfold train. by rewrite decide_True by done.
  - destruct (getWeights_zero (this s) a model Em) as (w & E & Hr & Hc & Hch & Hz).
    exists w. repeat split; try done. unfold Mat_size. by rewrite Hr, Hc.
Qed.

End Lifecycle.

(** ** The scale factor *)

(** X14: for positive cell sizes [scaleFactor()] is positive and at most
    [1], and a larger cell size gives a strictly smaller scale factor. *)
Theorem scaleFactor_bounds (e1 e2 : HOGFeatureExtractor) :
  (0 < _cellSize e1)%Z → (_cellSize e1 < _cellSize e2)%Z →
  (0 < scaleFactor e2)%Q ∧ (scaleFactor e2 < scaleFactor e1)%Q ∧
  (scaleFactor e1 <= 1)%Q.
Proof.
  intros H1 H2. unfold scaleFactor.
  destruct e1 as [n1 u1 c1], e2 as [n2 u2 c2]. cbn in *.
  destruct c1 as [|p1|p1]; try lia. destruct c2 as [|p2|p2]; try lia.
  unfold Qlt, Qle, Qdiv, Qinv, Qmult, inject_Z. cbn. lia.
Qed.

(** ** Concrete runs *)

Lemma holding_unit_model_invariant : invariant ∅ holding_unit_model.
Proof.
  unfold invariant. split; [apply holding_unit_model_consistent|].
  split; [apply delete_singleton_eq|].
  unfold holding_unit_model. cbn [log this _model _data]. count_events.
Qed.




Lemma deinit_twice_witness :
  ∃ s1, @_deinit holding_unit_model = (Ret (), s1) ∧ mem s1 = others holding_unit_model ∧
        @_deinit s1 = (Ret (), s1).
Proof.
  destruct (deinit_twice holding_unit_model holding_unit_model_consistent)
    as (s1 & E1 & Hm & E2 & _).
  exists s1. repeat split; assumption.
Defined.

Lemma load_forgets_history_witness :
  @predict toy_libsvm
    (this (snd (@load toy_libsvm "svm_type c_svc" (start ∅)))) (column [2%Q]) =
  @predict toy_libsvm
    (this (snd (@load toy_libsvm "svm_type c_svc" holding_unit_model))) (column [2%Q]).
Proof.
  apply (@load_forgets_history toy_libsvm "svm_type c_svc" (start ∅) holding_unit_model
           (consistent_fresh _ _ _) holding_unit_model_consistent).
Defined.

Lemma load_file_failure_witness :
  this (snd (@load_file toy_libsvm {[ "a.model" := "not a model" ]} "a.model"
               holding_unit_model)) = new_SupportVectorMachine (mkSize 0 0).
Proof.
  destruct (@load_file_failure toy_libsvm {[ "a.model" := "not a model" ]} "a.model"
              holding_unit_model LoadFailed
              (snd (@load_file toy_libsvm {[ "a.model" := "not a model" ]} "a.model"
                      holding_unit_model))
              holding_unit_model_consistent)
    as [(Hn & _) | (f & _ & _ & _ & Ht & _)].
  - vm_compute. reflexivity.
  - vm_compute in Hn. discriminate Hn.
  - exact Ht.
Defined.

Lemma getWeights_unchanged_by_train_witness :
  @getWeights (this (snd (@train toy_libsvm [1%Q] [column [3%Q]] () holding_unit_model))) =
  @getWeights (this holding_unit_model).
Proof.
  apply (@getWeights_unchanged_by_train toy_libsvm [1%Q] [column [3%Q]] ()
           holding_unit_model ∅ holding_unit_model_invariant).
  eexists. reflexivity.
Defined.

Lemma scaleFactor_bounds_witness :
  (scaleFactor (mkHOG 18 true 8) < scaleFactor (mkHOG 18 true 6))%Q.
Proof.
  apply (scaleFactor_bounds (mkHOG 18 true 6) (mkHOG 18 true 8)); cbn; lia.
Defined.
